(** * The intercorrelation filter of the features-analysis notebook

    A shallow embedding of [selectNonIntercorrelated] (notebook
    [AI4MI_features_analysis.ipynb], cell "Feature selection") and the proofs
    of its properties.

    Modelling decisions.
    - The function reads its data frame [df_in] only through
      [df_in.corr(method='spearman')], a pandas computation.  The embedding
      takes that frame of signed Spearman coefficients as the representation
      of [df_in]: its labels are the numeric columns of [df_in], in order.
      Everything after that call is embedded operation by operation.
    - A float is an exact rational ([Q]); NaN is [None].  A comparison with
      NaN is false and [mean] skips NaN, as in pandas.  The column means are
      the one place where the function does arithmetic: [nanmean] is the
      exact mean, [mean64] the mean as binary64 computes it, and the
      properties that depend on which of two means is the higher one are
      stated for the function with the mean as a parameter
      ([selectNonIntercorrelated_by]).
    - A label lookup ([s[label]]) raises [KeyError] on an absent label, so
      the function lives in an error monad.
    - The function is embedded twice: as a function of values, on which the
      properties of its result are proved, and as a computation on the
      Python heap, where its arguments are references and the list of drop
      candidates is mutated in place; the second is shown to compute the
      first. *)

From Stdlib Require Import QArith Qabs Lqa Uint63.
From Corelib Require Import PrimFloat FloatOps SpecFloat FloatClass.
From stdpp Require Import base list strings.

Set Warnings "-clear-no-such-hyp".

(** ** Python results *)

Inductive exn : Type :=
  | KeyError (label : string)
  | TypeError.

Inductive result (A : Type) : Type :=
  | Return (v : A)
  | Raise (e : exn).
Arguments Return {A} v.
Arguments Raise {A} e.

#[global] Instance result_ret : MRet result := @Return.
#[global] Instance result_bind : MBind result := λ A B k r,
  match r with
  | Return v => k v
  | Raise e => Raise e
  end.

(** [for x in xs: s = body s x], stopping at the first exception. *)
Fixpoint for_each {A S : Type} (body : S → A → result S) (xs : list A) (s : S)
  : result S :=
  match xs with
  | [] => Return s
  | x :: xs' => s' ← body s x; for_each body xs' s'
  end.

(** ** Floats, series and frames *)

Abbreviation cell := (option Q).

#[global] Instance Qlt_decision (x y : Q) : Decision (x < y)%Q :=
  Z_lt_dec (Qnum x * QDen y) (Qnum y * QDen x).

(** [a > b] on floats: false as soon as one side is NaN. *)
Definition cell_gt (a b : cell) : bool :=
  match a, b with
  | Some x, Some y => bool_decide (y < x)%Q
  | _, _ => false
  end.

(** A labelled list: a pandas Series is a labelled list of cells, the columns
    of a frame a labelled list of value lists. *)
Abbreviation Series := (list (string * cell)).

Record Frame : Type := mkFrame {
  index : list string;                    (* row labels *)
  data : list (string * list cell)        (* the columns, each aligned with [index] *)
}.

Definition frame_columns (f : Frame) : list string := (data f).*1.

(** [obj[label]]: the first entry carrying the label. *)
Fixpoint getitem {A : Type} (kvs : list (string * A)) (label : string) : result A :=
  match kvs with
  | [] => Raise (KeyError label)
  | (k, v) :: kvs' => if decide (k = label) then Return v else getitem kvs' label
  end.

(** The cell of a value list at a row position; NaN outside. *)
Definition cell_at (vs : list cell) (i : nat) : cell := mjoin (vs !! i).

(** [f.iloc[i, j]]. *)
Definition entry (f : Frame) (i j : nat) : cell :=
  c ← data f !! j; cell_at c.2 i.

(** [f[label]] as a Series over the frame's index. *)
Definition frame_getitem (f : Frame) (label : string) : result Series :=
  vs ← getitem (data f) label; Return (zip (index f) vs).

(** [f.abs()]. *)
Definition cell_abs (v : cell) : cell := Qabs <$> v.

Definition frame_abs (f : Frame) : Frame :=
  mkFrame (index f) ((λ c : string * list cell, (c.1, cell_abs <$> c.2)) <$> data f).

(** [mean] of one column, NaN skipped; NaN when nothing is left. *)
Definition nanmean (vs : list cell) : cell :=
  let present := omap id vs in
  match present with
  | [] => None
  | _ => Some (foldl Qplus 0%Q present / inject_Z (Z.of_nat (length present)))%Q
  end.

(** [f.mean()]: the Series of column means. *)
Definition frame_mean (f : Frame) : Series :=
  (λ c : string * list cell, (c.1, nanmean c.2)) <$> data f.

(** A boolean array of a frame's shape, column by column. *)
Abbreviation mask := (list (list bool)).

Definition frame_shape (f : Frame) : nat * nat := (length (index f), length (data f)).

(** [np.triu(np.ones(shape), k).astype(np.bool)]: true at row [i], column
    [j] when [j - i >= k]. *)
Definition triu_ones (shape : nat * nat) (k : nat) : mask :=
  (λ j, (λ i, bool_decide (i + k ≤ j)) <$> seq 0 shape.1) <$> seq 0 shape.2.

(** [f.where(m)]: the cell where the mask holds, NaN elsewhere. *)
Definition frame_where (f : Frame) (m : mask) : Frame :=
  mkFrame (index f)
    (zip_with
       (λ (c : string * list cell) (mc : list bool),
          (c.1, zip_with (λ v (b : bool), if b then v else None) c.2 mc))
       (data f) m).

(** [f > th]. *)
Definition frame_gt (f : Frame) (th : Q) : mask :=
  (λ c : string * list cell, (λ v, cell_gt v (Some th)) <$> c.2) <$> data f.

(** [f.dropna(how='all', axis=1)]: drop the columns that hold only NaN. *)
Definition dropna_all_columns (f : Frame) : Frame :=
  mkFrame (index f) (filter (λ c : string * list cell, Exists is_Some c.2) (data f)).

(** [f.dropna(how='all', axis=0)]: drop the rows that hold only NaN. *)
Definition kept_rows (f : Frame) : list nat :=
  filter (λ i, Exists (λ c : string * list cell, is_Some (cell_at c.2 i)) (data f))
    (seq 0 (length (index f))).

Definition dropna_all_rows (f : Frame) : Frame :=
  let rows := kept_rows f in
  mkFrame (omap (λ i, index f !! i) rows)
          ((λ c : string * list cell, (c.1, cell_at c.2 <$> rows)) <$> data f).

(** [s.index[pd.notnull(s)]]. *)
Definition index_notnull (s : Series) : list string :=
  (filter (λ kv : string * cell, is_Some kv.2) s).*1.

(** ** The function *)

(** [if x not in set: set.append(x)]. *)
Definition append_new (x : string) (set : list string) : list string :=
  if decide (x ∈ set) then set else set ++ [x].

(** The body of the inner loop. *)
Definition mark_pair (mean_absolute_corr : Series) (feature : string)
    (mean_absolute_main : cell) (set : list string) (each_correlated_feature : string)
  : result (list string) :=
  mean_absolute ← getitem mean_absolute_corr each_correlated_feature;
  if cell_gt mean_absolute_main mean_absolute
  then Return (append_new feature set)
  else Return (append_new each_correlated_feature set).

(** The body of the outer loop. *)
Definition mark_column (mean_absolute_corr : Series) (high_corrs : Frame)
    (set : list string) (feature : string) : result (list string) :=
  mean_absolute_main ← getitem mean_absolute_corr feature;
  column ← frame_getitem high_corrs feature;
  let correlated_with_feature := index_notnull column in
  for_each (mark_pair mean_absolute_corr feature mean_absolute_main)
    correlated_with_feature set.

Definition high_correlations (corr_matrix : Frame) (corr_th : Q) : Frame :=
  let upper := frame_where corr_matrix (triu_ones (frame_shape corr_matrix) 1) in
  dropna_all_rows (dropna_all_columns (frame_where upper (frame_gt upper corr_th))).

(** The drop candidates: [intercorrelated_features_set] after the loops. *)
Definition intercorrelated_features_set (corr_matrix : Frame) (corr_th : Q)
  : result (list string) :=
  let mean_absolute_corr := frame_mean corr_matrix in
  let high_corrs := high_correlations corr_matrix corr_th in
  for_each (mark_column mean_absolute_corr high_corrs) (frame_columns high_corrs) [].

(** [selectNonIntercorrelated(df_in, ftrs, corr_th)], with [df_in] given by
    its Spearman frame [df_in.corr(method='spearman')]. *)
Definition selectNonIntercorrelated (df_in : Frame) (ftrs : list string) (corr_th : Q)
  : result (list string) :=
  let corr_matrix := frame_abs df_in in
  dropped ← intercorrelated_features_set corr_matrix corr_th;
  Return (filter (λ e, e ∉ dropped) ftrs).

(** ** Notions of the statements *)

(** The feature a pair marks: [feature] when its mean is strictly the
    higher one, [each_correlated_feature] otherwise. *)
Definition candidate (mean_absolute_main mean_absolute : cell)
    (feature each_correlated_feature : string) : string :=
  if cell_gt mean_absolute_main mean_absolute then feature else each_correlated_feature.

(** What one visit of the inner loop body amounts to. *)
Definition visits (means : Series) (high : Frame) (feature each x : string) : Prop :=
  ∃ main col m,
    getitem means feature = Return main ∧
    frame_getitem high feature = Return col ∧
    each ∈ index_notnull col ∧
    getitem means each = Return m ∧
    x = candidate main m feature each.

(** The frame before the two [dropna]: the cells above the diagonal that
    exceed the threshold. *)
Definition exceeding (corr_matrix : Frame) (corr_th : Q) : Frame :=
  let upper := frame_where corr_matrix (triu_ones (frame_shape corr_matrix) 1) in
  frame_where upper (frame_gt upper corr_th).

(** The mean of column [j]: the centrality score of the feature at
    position [j]. *)
Definition mean_of (f : Frame) (j : nat) : cell := c ← data f !! j; nanmean c.2.

Definition centrality (df : Frame) (j : nat) : cell := mean_of (frame_abs df) j.

(** [marks f th x]: some pair of positions [i < j] whose cell exceeds the
    threshold marks [x]. *)
Definition marks (f : Frame) (th : Q) (x : string) : Prop :=
  ∃ i j a b r,
    i < j ∧ frame_columns f !! i = Some a ∧ frame_columns f !! j = Some b ∧
    entry f i j = Some r ∧ (th < r)%Q ∧
    x = candidate (mean_of f j) (mean_of f i) b a.

(** [f.loc[a, b]]: the cell at row label [a] and column label [b]; NaN when a
    label is absent. *)
Definition corr_of (f : Frame) (a b : string) : cell :=
  match frame_getitem f b with
  | Return col => match getitem col a with Return v => v | Raise _ => None end
  | Raise _ => None
  end.

(** The Spearman frame of [df_in[names]].  The coefficient of two columns is
    computed from these two columns alone, so the frame of the selected
    columns is the sub-frame at their labels, in the order of [names]. *)
Definition restrict (df : Frame) (names : list string) : Frame :=
  mkFrame names ((λ b, (b, (λ a, corr_of df a b) <$> names)) <$> names).

(** ** Preconditions on the input *)

#[global] Instance Q_eq_dec : EqDecision Q.
Proof. solve_decision. Defined.

(** The coefficient of two columns does not depend on their order. *)
Definition symmetric (f : Frame) : Prop :=
  Forall (λ i, Forall (λ j, entry f i j = entry f j i) (seq 0 (length (data f))))
         (seq 0 (length (data f))).

(** What [df_in.corr(...)] returns: a frame indexed by its own, distinct,
    column labels, and symmetric. *)
Definition correlation_frame (f : Frame) : Prop :=
  index f = frame_columns f ∧ NoDup (frame_columns f) ∧ symmetric f.

#[global] Instance correlation_frame_dec f : Decision (correlation_frame f).
Proof. unfold correlation_frame, symmetric. apply _. Defined.

(** ** The call on the Python heap

    The same function once more, now with the objects it shares with its
    caller.  The two arguments are references into the heap; the pandas
    operations return new frames and are kept as values; the list
    [intercorrelated_features_set] is allocated by the call and mutated in
    place by [append]; the result is a newly allocated list, which [print]
    also writes to the standard output. *)

Inductive object : Type :=
  | OFrame (f : Frame)
  | OList (l : list string).

Abbreviation loc := nat.

Record state : Type := mkState {
  heap : list object;                 (* a reference is a position *)
  stdout : list (list string)         (* the lists printed so far *)
}.

(** A computation changes the state and returns or raises. *)
Definition exec (A : Type) : Type := state → result A * state.

#[global] Instance exec_ret : MRet exec := λ A v σ, (Return v, σ).
#[global] Instance exec_bind : MBind exec := λ A B k m σ,
  match m σ with
  | (Return v, σ') => k v σ'
  | (Raise e, σ') => (Raise e, σ')
  end.

Definition lift {A : Type} (r : result A) : exec A := λ σ, (r, σ).

Definition alloc (o : object) : exec loc := λ σ,
  (Return (length (heap σ)), mkState (heap σ ++ [o]) (stdout σ)).

Definition read_frame (l : loc) : exec Frame := λ σ,
  match heap σ !! l with
  | Some (OFrame f) => (Return f, σ)
  | _ => (Raise TypeError, σ)
  end.

Definition read_list (l : loc) : exec (list string) := λ σ,
  match heap σ !! l with
  | Some (OList xs) => (Return xs, σ)
  | _ => (Raise TypeError, σ)
  end.

(** [xs.append(x)], in place. *)
Definition list_append (l : loc) (x : string) : exec unit := λ σ,
  match heap σ !! l with
  | Some (OList xs) => (Return (), mkState (<[l := OList (xs ++ [x])]> (heap σ)) (stdout σ))
  | _ => (Raise TypeError, σ)
  end.

Definition print (xs : list string) : exec unit := λ σ,
  (Return (), mkState (heap σ) (stdout σ ++ [xs])).

Fixpoint for_each_run {A : Type} (body : A → exec unit) (xs : list A) : exec unit :=
  match xs with
  | [] => mret ()
  | x :: xs' => body x;; for_each_run body xs'
  end.

(** [if x not in set: set.append(x)]. *)
Definition append_new_run (set : loc) (x : string) : exec unit :=
  present ← read_list set;
  if decide (x ∈ present) then mret () else list_append set x.

Definition mark_pair_run (mean_absolute_corr : Series) (feature : string)
    (mean_absolute_main : cell) (set : loc) (each_correlated_feature : string)
  : exec unit :=
  mean_absolute ← lift (getitem mean_absolute_corr each_correlated_feature);
  if cell_gt mean_absolute_main mean_absolute
  then append_new_run set feature
  else append_new_run set each_correlated_feature.

Definition mark_column_run (mean_absolute_corr : Series) (high_corrs : Frame)
    (set : loc) (feature : string) : exec unit :=
  mean_absolute_main ← lift (getitem mean_absolute_corr feature);
  column ← lift (frame_getitem high_corrs feature);
  let correlated_with_feature := index_notnull column in
  for_each_run (mark_pair_run mean_absolute_corr feature mean_absolute_main set)
    correlated_with_feature.

Definition selectNonIntercorrelated_run (df_in ftrs : loc) (corr_th : Q) : exec loc :=
  df ← read_frame df_in;
  let corr_matrix := frame_abs df in
  let mean_absolute_corr := frame_mean corr_matrix in
  intercorrelated_features_set ← alloc (OList []);
  let high_corrs := high_correlations corr_matrix corr_th in
  for_each_run (mark_column_run mean_absolute_corr high_corrs intercorrelated_features_set)
    (frame_columns high_corrs);;
  names ← read_list ftrs;
  dropped ← read_list intercorrelated_features_set;
  let non_intercorrelated_features_set := filter (λ e, e ∉ dropped) names in
  out ← alloc (OList non_intercorrelated_features_set);
  print non_intercorrelated_features_set;;
  mret out.

(** From a state satisfying [P], [m] ends in a state satisfying [Q v] when
    it returns [v], and [E] when it raises. *)
Definition triple {A : Type} (P : state → Prop) (m : exec A)
    (Q : A → state → Prop) (E : state → Prop) : Prop :=
  ∀ σ, P σ → match m σ with
             | (Return v, σ') => Q v σ'
             | (Raise _, σ') => E σ'
             end.

(** The heap [h0] is still there, unchanged. *)
Definition extends (h0 : list object) (σ : state) : Prop := h0 `prefix_of` heap σ.

(** The state with the list at [l] replaced. *)
Definition set_at (l : loc) (xs : list string) (σ : state) : state :=
  mkState (<[l := OList xs]> (heap σ)) (stdout σ).

(** ** Example inputs *)

(** Three features, [a] and [b] strongly anti-correlated: the Spearman frame
    of the five observations [a = 1, 2, 3, 4, 5], [b = 5, 4, 3, 1, 2] and
    [c = 3, 1, 5, 2, 4] (no ties, so the coefficient is
    [1 - 6 * sum d^2 / (n * (n^2 - 1))] with [sum d^2] = 38, 14 and 22). *)
Definition corr3 : Frame :=
  mkFrame ["a"; "b"; "c"]
    [("a", [Some 1; Some (-9 # 10); Some (3 # 10)]);
     ("b", [Some (-9 # 10); Some 1; Some (-1 # 10)]);
     ("c", [Some (3 # 10); Some (-1 # 10); Some 1])]%Q.

(** Two perfectly correlated features, such as [a = 1, 2, 3] and
    [b = 10, 20, 30]. *)
Definition corr2 : Frame :=
  mkFrame ["a"; "b"] [("a", [Some 1; Some 1]); ("b", [Some 1; Some 1])]%Q.

(** A single feature. *)
Definition corr1 : Frame := mkFrame ["a"] [("a", [Some 1%Q])].

Definition caller_state : state :=
  mkState [OList ["x"]; OFrame corr3; OList ["a"; "b"; "c"]] [].

(** ** The function, with the column mean as a parameter

    Which feature of a pair is marked depends on the comparison of two
    column means, and so on how [corr_matrix.mean()] rounds.  Here the mean
    of a column is a parameter [mean]; everything else is the function as
    above, which is the instance at [nanmean]. *)

(** [f.mean()] with [mean] for the mean of a column. *)
Definition frame_mean_by (mean : list cell → cell) (f : Frame) : Series :=
  (λ c : string * list cell, (c.1, mean c.2)) <$> data f.

Definition intercorrelated_features_set_by (mean : list cell → cell)
    (corr_matrix : Frame) (corr_th : Q) : result (list string) :=
  let mean_absolute_corr := frame_mean_by mean corr_matrix in
  let high_corrs := high_correlations corr_matrix corr_th in
  for_each (mark_column mean_absolute_corr high_corrs) (frame_columns high_corrs) [].

Definition selectNonIntercorrelated_by (mean : list cell → cell)
    (df_in : Frame) (ftrs : list string) (corr_th : Q) : result (list string) :=
  let corr_matrix := frame_abs df_in in
  dropped ← intercorrelated_features_set_by mean corr_matrix corr_th;
  Return (filter (λ e, e ∉ dropped) ftrs).

(** The mean of column [j] of a frame, and the score of the feature at
    position [j]: the mean of its column of absolute coefficients. *)
Definition column_mean (mean : list cell → cell) (f : Frame) (j : nat) : cell :=
  c ← data f !! j; mean c.2.

Definition score (mean : list cell → cell) (df : Frame) (j : nat) : cell :=
  column_mean mean (frame_abs df) j.

(** [marks] with [mean] for the mean of a column. *)
Definition marks_by (mean : list cell → cell) (f : Frame) (th : Q) (x : string) : Prop :=
  ∃ i j a b r,
    i < j ∧ frame_columns f !! i = Some a ∧ frame_columns f !! j = Some b ∧
    entry f i j = Some r ∧ (th < r)%Q ∧
    x = candidate (column_mean mean f j) (column_mean mean f i) b a.

(** ** The mean in binary64

    The mean of a column as pandas computes it on 64-bit floats: NaN
    skipped, the values added one by one from the top, the sum divided by
    their number, each operation rounded to the nearest.  A cell [n # d]
    stands for the double nearest to it (numerator and denominator below
    [2^53]); the result is the exact value of the double obtained. *)

Definition Z_to_float (z : Z) : float :=
  match z with
  | Z0 => PrimFloat.zero
  | Zpos p => PrimFloat.of_uint63 (Uint63.of_Z (Zpos p))
  | Zneg p => PrimFloat.opp (PrimFloat.of_uint63 (Uint63.of_Z (Zpos p)))
  end.

Definition Q_to_float (q : Q) : float :=
  PrimFloat.div (Z_to_float (Qnum q)) (Z_to_float (Zpos (Qden q))).

Definition float_to_cell (x : float) : cell :=
  match Prim2SF x with
  | S754_zero _ => Some 0%Q
  | S754_finite s m e =>
      let n := if s then Zneg m else Zpos m in
      Some (match e with
            | Zneg k => n # (2 ^ k)
            | _ => inject_Z (n * 2 ^ e)
            end)
  | _ => None
  end.

Definition mean64 (vs : list cell) : cell :=
  let present := omap id vs in
  match present with
  | [] => None
  | _ => float_to_cell
           (PrimFloat.div
              (foldl PrimFloat.add PrimFloat.zero (Q_to_float <$> present))
              (Z_to_float (Z.of_nat (length present))))
  end.

(** The Spearman frame of the five observations [a = 1, 2, 3, 4, 5],
    [b = 1, 2, 3, 5, 4], [c = 1, 2, 4, 3, 5] and [d = 2, 5, 3, 1, 4]: the
    columns [a] and [c] have the same exact mean, 0.7, and different means
    in binary64. *)
Definition corr4 : Frame :=
  mkFrame ["a"; "b"; "c"; "d"]
    [("a", [Some 1; Some (9 # 10); Some (9 # 10); Some 0]);
     ("b", [Some (9 # 10); Some 1; Some (7 # 10); Some (-3 # 10)]);
     ("c", [Some (9 # 10); Some (7 # 10); Some 1; Some (2 # 10)]);
     ("d", [Some 0; Some (-3 # 10); Some (2 # 10); Some 1])]%Q.

(** ** Positional access

    The loop of the notebook that fills the missing values addresses frames
    and arrays by position; a position out of bounds raises [IndexError]. *)

Inductive checked (A : Type) : Type :=
  | Ok (v : A)
  | IndexError.
Arguments Ok {A} v.
Arguments IndexError {A}.

#[global] Instance checked_ret : MRet checked := @Ok.
#[global] Instance checked_bind : MBind checked := λ A B k r,
  match r with
  | Ok v => k v
  | IndexError => IndexError
  end.

(** [for x in xs: s = body s x], stopping at the first exception. *)
Fixpoint for_in {S A : Type} (body : S → A → checked S) (xs : list A) (s : S)
  : checked S :=
  match xs with
  | [] => Ok s
  | x :: xs' => s' ← body s x; for_in body xs' s'
  end.

(** [xs[i]] on a list or a one-dimensional array. *)
Definition item {A : Type} (xs : list A) (i : nat) : checked A :=
  match xs !! i with
  | Some v => Ok v
  | None => IndexError
  end.

(** A two-dimensional numpy array, row by row. *)
Abbreviation array2 := (list (list cell)).

(** [X[x, y]]. *)
Definition array_get (X : array2) (x y : nat) : checked cell :=
  row ← item X x; item row y.

(** [f.iloc[x, y] = v]; the frame is never enlarged. *)
Definition iloc_set (f : Frame) (x y : nat) (v : cell) : checked Frame :=
  c ← item (data f) y;
  if decide (x < length (index f))
  then Ok (mkFrame (index f) (<[y := (c.1, <[x := v]> c.2)]> (data f)))
  else IndexError.

(** ** Filling the missing values

    [X = np.array(data_all)], then for each NaN of [X] the cell of the two
    copies of [data_all] is set from the two imputed arrays. *)

(** [np.array(f)]. *)
Definition to_array (f : Frame) : array2 :=
  (λ x, (λ c : string * list cell, cell_at c.2 x) <$> data f) <$> seq 0 (length (index f)).

(** The positions of the NaN of an array, row by row. *)
Definition nan_positions (X : array2) : list (nat * nat) :=
  mjoin (imap (λ x (row : list cell),
                 omap id (imap (λ y (v : cell),
                                  match v with None => Some (x, y) | Some _ => None end)
                            row))
           X).

(** [np.where(np.isnan(X))]: the row positions and the column positions. *)
Definition where_isnan (X : array2) : list nat * list nat :=
  ((nan_positions X).*1, (nan_positions X).*2).

(** The body of the loop, on the two copies. *)
Definition fill_cell (X X_imp_simple X_imp_it : array2)
    (copies : Frame * Frame) (i : nat) : checked (Frame * Frame) :=
  x ← item (where_isnan X).1 i;
  y ← item (where_isnan X).2 i;
  v_simple ← array_get X_imp_simple x y;
  data_all_simple ← iloc_set copies.1 x y v_simple;
  v_it ← array_get X_imp_it x y;
  data_all_it ← iloc_set copies.2 x y v_it;
  Ok (data_all_simple, data_all_it).

(** The cell of the notebook: the two copies after the loop. *)
Definition fill_missing (data_all : Frame) (X_imp_simple X_imp_it : array2)
  : checked (Frame * Frame) :=
  let X := to_array data_all in
  let data_all_simple := data_all in
  let data_all_it := data_all in
  for_in (fill_cell X X_imp_simple X_imp_it)
    (seq 0 (length (where_isnan X).1)) (data_all_simple, data_all_it).

(** What a turn of the loop does at the position [p] of a NaN. *)
Definition fill_at (X_imp_simple X_imp_it : array2)
    (copies : Frame * Frame) (p : nat * nat) : checked (Frame * Frame) :=
  v_simple ← array_get X_imp_simple p.1 p.2;
  data_all_simple ← iloc_set copies.1 p.1 p.2 v_simple;
  v_it ← array_get X_imp_it p.1 p.2;
  data_all_it ← iloc_set copies.2 p.1 p.2 v_it;
  Ok (data_all_simple, data_all_it).

(** Every column has one value per row. *)
Definition rectangular (f : Frame) : Prop :=
  Forall (λ c : string * list cell, length c.2 = length (index f)) (data f).

(** The cell an array holds at a position, NaN outside. *)
Definition array_cell (X : array2) (x y : nat) : cell :=
  row ← X !! x; mjoin (row !! y).

(** [f'] is [f] with the cells at the positions [ps] taken from [X]. *)
Definition filled (X : array2) (ps : list (nat * nat)) (f f' : Frame) : Prop :=
  index f' = index f ∧ frame_columns f' = frame_columns f ∧ rectangular f' ∧
  ∀ i j, entry f' i j = if decide ((i, j) ∈ ps) then array_cell X i j else entry f i j.

(** Two observations with a missing value each, and the arrays imputed for
    them by the mean and by regression. *)

Definition measured : Frame :=
  mkFrame ["p1"; "p2"]
    [("volume", [Some 1; None]); ("energy", [None; Some 4])]%Q.

Definition imputed_simple : array2 := [[Some 1; Some 4]; [Some 1; Some 4]]%Q.

Definition imputed_it : array2 := [[Some 1; Some 5]; [Some 2; Some 4]]%Q.

(** ** Which feature of a pair survives *)

(** Column [k] is preferred to column [d]: its score is lower, or the scores
    are equal and it comes later in the matrix.  In a pair above the
    threshold the feature that is not preferred is the one marked. *)
Definition preferred (f : Frame) (k d : nat) : Prop :=
  match mean_of f k, mean_of f d with
  | Some mk, Some md => (mk < md)%Q ∨ ((mk == md)%Q ∧ d < k)
  | _, _ => False
  end.

(** * Proofs *)

(** ** Lookups by label *)

Section getitem.
Context {A : Type}.
Implicit Types (kvs : list (string * A)) (label : string) (v : A).

Lemma getitem_Return kvs label v :
  getitem kvs label = Return v → (label, v) ∈ kvs.
Proof.
  induction kvs as [|[k w] kvs IH]; simpl; [done|].
  case_decide as Hk.
  - intros [= ->]. subst k. left.
  - intros Hget. right. by apply IH.
Qed.

Lemma getitem_is_Return kvs label :
  label ∈ kvs.*1 → ∃ v, getitem kvs label = Return v.
Proof.
  induction kvs as [|[k w] kvs IH]; simpl.
  - by intros ?%elem_of_nil.
  - intros Hin. case_decide as Hk; [by eexists|].
    apply elem_of_cons in Hin as [->|Hin]; [done|]. by apply IH.
Qed.

Lemma getitem_NoDup kvs label v :
  NoDup kvs.*1 → (label, v) ∈ kvs → getitem kvs label = Return v.
Proof.
  induction kvs as [|[k w] kvs IH]; simpl.
  - by intros _ ?%elem_of_nil.
  - intros [Hk Hnd]%NoDup_cons Hin. case_decide as Heq.
    + apply elem_of_cons in Hin as [[= _ ->]|Hin]; [done|].
      subst k. destruct Hk. apply list_elem_of_fmap. by exists (label, v).
    + apply elem_of_cons in Hin as [[= -> _]|Hin]; [done|]. by apply IH.
Qed.

End getitem.

(** ** The two loops *)

Lemma elem_of_append_new x y set : x ∈ append_new y set ↔ x ∈ set ∨ x = y.
Proof.
  unfold append_new. case_decide as Hy.
  - split; [by left|]. intros [?| ->]; done.
  - rewrite elem_of_app, list_elem_of_singleton. done.
Qed.

Section loops.
Variables (means : Series) (high : Frame).

Lemma mark_pair_Return feature main set each m :
  getitem means each = Return m →
  mark_pair means feature main set each
  = Return (append_new (candidate main m feature each) set).
Proof.
  intros Hm. unfold mark_pair, candidate. rewrite Hm. simpl.
  by destruct (cell_gt main m).
Qed.

Lemma for_each_mark_pair feature main xs : ∀ set,
  (∀ each, each ∈ xs → ∃ m, getitem means each = Return m) →
  ∃ set', for_each (mark_pair means feature main) xs set = Return set' ∧
    ∀ x, x ∈ set' ↔
      x ∈ set ∨ ∃ each m, each ∈ xs ∧ getitem means each = Return m ∧
                          x = candidate main m feature each.
Proof.
  induction xs as [|each xs IH]; intros set Hmeans; simpl.
  - exists set. split; [done|]. intros x. split; [by left|].
    intros [?|(? & ? & ?%elem_of_nil & _)]; done.
  - destruct (Hmeans each) as [m Hm]; [left|].
    rewrite (mark_pair_Return _ _ _ _ _ Hm). simpl.
    destruct (IH (append_new (candidate main m feature each) set)) as (set' & -> & Hset').
    { intros e He. apply Hmeans. by right. }
    exists set'. split; [done|]. intros x. rewrite Hset', elem_of_append_new.
    split.
    + intros [[?| ->]|(e & me & He & Hme & ->)]; [by left|right..].
      * exists each, m. split; [left|done].
      * exists e, me. split; [by right|done].
    + intros [?|(e & me & He & Hme & ->)]; [by left; left|].
      apply elem_of_cons in He as [->|He].
      * left; right. congruence.
      * right. by exists e, me.
Qed.

Lemma mark_column_Return feature main col set :
  getitem means feature = Return main →
  frame_getitem high feature = Return col →
  mark_column means high set feature
  = for_each (mark_pair means feature main) (index_notnull col) set.
Proof. intros Hmain Hcol. unfold mark_column. by rewrite Hmain, Hcol. Qed.

Lemma for_each_mark_column cols : ∀ set,
  (∀ feature, feature ∈ cols →
     ∃ main col, getitem means feature = Return main ∧
       frame_getitem high feature = Return col ∧
       ∀ each, each ∈ index_notnull col → ∃ m, getitem means each = Return m) →
  ∃ set', for_each (mark_column means high) cols set = Return set' ∧
    ∀ x, x ∈ set' ↔
      x ∈ set ∨ ∃ feature each, feature ∈ cols ∧ visits means high feature each x.
Proof.
  induction cols as [|feature cols IH]; intros set Hcols; cbn [for_each].
  - exists set. split; [done|]. intros x. split; [by left|].
    intros [?|(? & ? & ?%elem_of_nil & _)]; done.
  - destruct (Hcols feature) as (main & col & Hmain & Hcol & Heach); [left|].
    rewrite (mark_column_Return _ _ _ _ Hmain Hcol).
    destruct (for_each_mark_pair feature main (index_notnull col) set Heach)
      as (set1 & -> & Hset1). simpl.
    destruct (IH set1) as (set' & -> & Hset').
    { intros f Hf. apply Hcols. by right. }
    exists set'. split; [done|]. intros x. rewrite Hset', Hset1. split.
    + intros [[?|(e & m & He & Hm & ->)]|(f & e & Hf & Hv)]; [by left|right..].
      * exists feature, e. split; [left|]. by exists main, col, m.
      * exists f, e. split; [by right|done].
    + intros [?|(f & e & Hf & Hv)]; [by left; left|].
      apply elem_of_cons in Hf as [->|Hf].
      * left; right. destruct Hv as (main' & col' & m & Hmain' & Hcol' & He & Hm & ->).
        exists e, m. split_and!; [congruence|done|congruence].
      * right. by exists f, e.
Qed.
End loops.

(** ** Cells of the intermediate frames *)

Lemma entry_frame_where f m i j :
  entry (frame_where f m) i j
  = if default false (mc ← m !! j; mc !! i) then entry f i j else None.
Proof.
  unfold entry, frame_where. simpl. rewrite lookup_zip_with.
  destruct (data f !! j) as [c|]; simpl; [|by destruct (default _ _)].
  destruct (m !! j) as [mc|]; simpl; [|done].
  unfold cell_at. rewrite lookup_zip_with.
  destruct (c.2 !! i) as [v|]; simpl; [|by destruct (default _ _)].
  by destruct (mc !! i) as [[]|].
Qed.

Lemma triu_ones_lookup shape k i j :
  (mc ← triu_ones shape k !! j; mc !! i)
  = if bool_decide (j < shape.2 ∧ i < shape.1) then Some (bool_decide (i + k ≤ j)) else None.
Proof.
  unfold triu_ones. rewrite list_lookup_fmap.
  destruct (decide (j < shape.2)) as [Hj|Hj].
  - rewrite lookup_seq_lt by done. simpl. rewrite list_lookup_fmap.
    destruct (decide (i < shape.1)) as [Hi|Hi].
    + rewrite lookup_seq_lt by lia. simpl.
      by rewrite (bool_decide_eq_true_2 (_ ∧ _)).
    + rewrite lookup_seq_ge by lia. simpl. rewrite bool_decide_eq_false_2; [done|lia].
  - rewrite lookup_seq_ge by lia. simpl. rewrite bool_decide_eq_false_2; [done|lia].
Qed.

Lemma entry_Some_lt f i j r : entry f i j = Some r → j < length (data f).
Proof.
  unfold entry. destruct (data f !! j) eqn:Hj; [|done].
  intros _. by eapply lookup_lt_Some.
Qed.

Lemma entry_upper f i j :
  entry (frame_where f (triu_ones (frame_shape f) 1)) i j
  = if bool_decide (i < j ∧ i < length (index f)) then entry f i j else None.
Proof.
  rewrite entry_frame_where, triu_ones_lookup. unfold frame_shape. simpl.
  destruct (entry f i j) as [r|] eqn:Hr; [|by repeat case_bool_decide].
  apply entry_Some_lt in Hr.
  repeat case_bool_decide; simpl; try done; lia.
Qed.

Lemma entry_where_gt g th i j :
  entry (frame_where g (frame_gt g th)) i j
  = if cell_gt (entry g i j) (Some th) then entry g i j else None.
Proof.
  rewrite entry_frame_where. unfold frame_gt, entry. rewrite list_lookup_fmap.
  destruct (data g !! j) as [c|]; simpl; [|done].
  unfold cell_at. rewrite list_lookup_fmap.
  by destruct (c.2 !! i) as [v|].
Qed.

Lemma high_correlations_exceeding f th :
  high_correlations f th = dropna_all_rows (dropna_all_columns (exceeding f th)).
Proof. done. Qed.

Lemma cell_gt_Some a th : cell_gt a (Some th) = true ↔ ∃ r, a = Some r ∧ (th < r)%Q.
Proof.
  destruct a as [r|]; simpl.
  - rewrite bool_decide_eq_true. naive_solver.
  - naive_solver.
Qed.

Lemma entry_exceeding f th i j r :
  entry (exceeding f th) i j = Some r ↔
  i < j ∧ i < length (index f) ∧ entry f i j = Some r ∧ (th < r)%Q.
Proof.
  unfold exceeding. rewrite entry_where_gt, entry_upper.
  case_bool_decide as Hij.
  - destruct (cell_gt _ _) eqn:Hgt.
    + apply cell_gt_Some in Hgt as (r' & Hr' & Hlt). rewrite Hr'. naive_solver.
    + split; [done|]. intros (_ & _ & Hr & Hlt).
      assert (cell_gt (entry f i j) (Some th) = true) by (apply cell_gt_Some; eauto).
      congruence.
  - simpl. naive_solver.
Qed.

Lemma frame_where_columns f m :
  length (data f) ≤ length m → frame_columns (frame_where f m) = frame_columns f.
Proof.
  unfold frame_columns, frame_where. simpl.
  generalize (data f). intros l. revert m.
  induction l as [|c l IH]; intros [|mc m] Hlen; simpl in *; try done; [lia|].
  f_equal. apply IH. lia.
Qed.

Lemma exceeding_columns f th : frame_columns (exceeding f th) = frame_columns f.
Proof.
  unfold exceeding. rewrite !frame_where_columns; [done|..].
  - unfold triu_ones, frame_shape. simpl. by rewrite length_fmap, length_seq.
  - unfold frame_gt. by rewrite length_fmap.
Qed.

(** ** The two [dropna] *)

Lemma entry_lookup f i j c : data f !! j = Some c → entry f i j = cell_at c.2 i.
Proof. intros Hc. unfold entry. by rewrite Hc. Qed.

Lemma Exists_is_Some_cell_at (vs : list cell) :
  Exists is_Some vs ↔ ∃ i r, cell_at vs i = Some r.
Proof.
  rewrite Exists_exists. unfold cell_at. split.
  - intros (v & [i Hi]%list_elem_of_lookup & [r ->]). exists i, r. by rewrite Hi.
  - intros (i & r & Hr). destruct (vs !! i) as [v|] eqn:Hi; [|done].
    simpl in Hr. subst v. exists (Some r). split; [|by eexists].
    apply list_elem_of_lookup. by exists i.
Qed.

Lemma dropna_all_rows_columns g :
  frame_columns (dropna_all_rows g) = frame_columns g.
Proof.
  unfold frame_columns, dropna_all_rows. simpl.
  rewrite <-list_fmap_compose. done.
Qed.

Lemma elem_of_kept_rows g i :
  i ∈ kept_rows g ↔
  i < length (index g) ∧ Exists (λ c : string * list cell, is_Some (cell_at c.2 i)) (data g).
Proof.
  unfold kept_rows. rewrite list_elem_of_filter, elem_of_seq. intuition lia.
Qed.

Lemma index_notnull_rows (idx : list string) (g : nat → cell) (rows : list nat) each :
  (∀ i, i ∈ rows → i < length idx) →
  each ∈ index_notnull (zip (omap (λ i, idx !! i) rows) (g <$> rows)) ↔
  ∃ i, i ∈ rows ∧ idx !! i = Some each ∧ is_Some (g i).
Proof.
  unfold index_notnull.
  induction rows as [|i rows IH]; intros Hrows.
  - simpl. split; [by intros ?%elem_of_nil|]. by intros (? & ?%elem_of_nil & _).
  - destruct (lookup_lt_is_Some_2 idx i) as [label Hi]; [apply Hrows; left|].
    simpl. rewrite Hi. simpl. rewrite filter_cons. simpl.
    assert (IH' := IH (λ k Hk, Hrows k (list_elem_of_further _ _ _ Hk))).
    clear IH. case_decide as Hg.
    + rewrite fmap_cons, elem_of_cons, IH'. simpl. split.
      * intros [->|(k & Hk & Hlab & Hgk)]; [exists i|exists k]; split_and!; try done.
        { left. } { by right. }
      * intros (k & [->|Hk]%elem_of_cons & Hlab & Hgk); [left; congruence|].
        right. by exists k.
    + rewrite IH'. split.
      * intros (k & Hk & Hlab & Hgk). exists k. split_and!; try done. by right.
      * intros (k & [->|Hk]%elem_of_cons & Hlab & Hgk); [done|]. by exists k.
Qed.

Lemma high_correlations_columns f th feature :
  feature ∈ frame_columns (high_correlations f th) ↔
  ∃ j c, data (exceeding f th) !! j = Some c ∧ c.1 = feature ∧ Exists is_Some c.2.
Proof.
  rewrite high_correlations_exceeding, dropna_all_rows_columns.
  unfold frame_columns, dropna_all_columns. simpl.
  rewrite list_elem_of_fmap. split.
  - intros (c & -> & [Hc [j Hj]%list_elem_of_lookup]%list_elem_of_filter). eauto.
  - intros (j & c & Hj & <- & Hc). exists c. split; [done|].
    apply list_elem_of_filter. split; [done|]. by eapply list_elem_of_lookup_2.
Qed.

Lemma high_correlations_getitem f th j c :
  NoDup (frame_columns f) →
  data (exceeding f th) !! j = Some c →
  Exists is_Some c.2 →
  ∃ col, frame_getitem (high_correlations f th) c.1 = Return col ∧
    ∀ each, each ∈ index_notnull col ↔
      ∃ i r, index f !! i = Some each ∧ entry (exceeding f th) i j = Some r.
Proof.
  intros Hnd Hj Hc.
  set (W := exceeding f th) in *.
  set (rows := kept_rows (dropna_all_columns W)).
  assert (Hin : c ∈ data (dropna_all_columns W)).
  { unfold dropna_all_columns. simpl. apply list_elem_of_filter.
    split; [done|]. by eapply list_elem_of_lookup_2. }
  exists (zip (omap (λ i, index f !! i) rows) (cell_at c.2 <$> rows)). split.
  - unfold frame_getitem. rewrite high_correlations_exceeding. fold W.
    erewrite getitem_NoDup; [done|..].
    + change (NoDup (frame_columns (dropna_all_rows (dropna_all_columns W)))).
      rewrite dropna_all_rows_columns. unfold frame_columns, dropna_all_columns. simpl.
      eapply sublist_NoDup; [|apply fmap_sublist, sublist_filter].
      change (NoDup (frame_columns W)). unfold W. by rewrite exceeding_columns.
    + unfold dropna_all_rows. simpl. fold rows.
      apply list_elem_of_fmap. by exists c.
  - intros each. rewrite index_notnull_rows.
    + split.
      * intros (i & Hi & Hlab & [r Hr]). exists i, r. split; [done|].
        by rewrite (entry_lookup _ _ _ _ Hj).
      * intros (i & r & Hlab & Hr). rewrite (entry_lookup _ _ _ _ Hj) in Hr.
        exists i. split_and!; [|done|by eexists].
        apply elem_of_kept_rows. split.
        { by eapply lookup_lt_Some. }
        apply Exists_exists. exists c. split; [done|]. by eexists.
    + intros i [Hi _]%elem_of_kept_rows. done.
Qed.

(** ** The drop candidates, pair by pair *)

Lemma frame_columns_lookup f j label :
  frame_columns f !! j = Some label ↔ ∃ c, data f !! j = Some c ∧ c.1 = label.
Proof.
  unfold frame_columns. rewrite list_lookup_fmap.
  destruct (data f !! j) as [c|]; simpl; naive_solver.
Qed.

Lemma frame_mean_columns f : (frame_mean f).*1 = frame_columns f.
Proof. unfold frame_mean, frame_columns. by rewrite <-list_fmap_compose. Qed.

Lemma frame_mean_getitem f j label :
  NoDup (frame_columns f) →
  frame_columns f !! j = Some label →
  getitem (frame_mean f) label = Return (mean_of f j).
Proof.
  intros Hnd (c & Hc & <-)%frame_columns_lookup.
  unfold mean_of. rewrite Hc. simpl.
  apply getitem_NoDup; [by rewrite frame_mean_columns|].
  unfold frame_mean. apply list_elem_of_fmap. exists c. split; [done|].
  by eapply list_elem_of_lookup_2.
Qed.

Theorem intercorrelated_features_set_spec f th :
  index f = frame_columns f →
  NoDup (frame_columns f) →
  ∃ dropped, intercorrelated_features_set f th = Return dropped ∧
    ∀ x, x ∈ dropped ↔ marks f th x.
Proof.
  intros Hidx Hnd. unfold intercorrelated_features_set.
  destruct (for_each_mark_column (frame_mean f) (high_correlations f th)
              (frame_columns (high_correlations f th)) []) as (dropped & Hrun & Hin).
  { intros feature (j & c & Hj & <- & Hc)%high_correlations_columns.
    assert (Hlab : frame_columns f !! j = Some c.1).
    { rewrite <-(exceeding_columns f th). apply frame_columns_lookup. eauto. }
    destruct (high_correlations_getitem f th j c Hnd Hj Hc) as (col & Hcol & Heach).
    exists (mean_of f j), col. split_and!; [by apply frame_mean_getitem|done|].
    intros each (i & r & Hi & _)%Heach.
    apply getitem_is_Return. rewrite frame_mean_columns, <-Hidx.
    by eapply list_elem_of_lookup_2. }
  exists dropped. split; [done|]. intros x. rewrite Hin. split.
  - intros [?%elem_of_nil|(feature & each & Hf & Hv)]; [done|].
    apply high_correlations_columns in Hf as (j & c & Hj & <- & Hc).
    assert (Hlab : frame_columns f !! j = Some c.1).
    { rewrite <-(exceeding_columns f th). apply frame_columns_lookup. eauto. }
    destruct (high_correlations_getitem f th j c Hnd Hj Hc) as (col & Hcol & Heach).
    destruct Hv as (main & col' & m & Hmain & Hcol' & He & Hm & ->).
    rewrite Hcol in Hcol'. injection Hcol' as <-.
    rewrite (frame_mean_getitem f j c.1 Hnd Hlab) in Hmain. injection Hmain as <-.
    apply Heach in He as (i & r & Hi & (Hij & _ & Hr & Hlt)%entry_exceeding).
    rewrite Hidx in Hi.
    rewrite (frame_mean_getitem f i each Hnd Hi) in Hm. injection Hm as <-.
    by exists i, j, each, c.1, r.
  - intros (i & j & a & b & r & Hij & Ha & Hb & Hr & Hlt & ->). right.
    assert (Hex : entry (exceeding f th) i j = Some r).
    { apply entry_exceeding. split_and!; try done.
      rewrite Hidx. by eapply lookup_lt_Some. }
    destruct (data (exceeding f th) !! j) as [c|] eqn:Hj;
      [|by unfold entry in Hex; rewrite Hj in Hex].
    assert (Hlab : frame_columns (exceeding f th) !! j = Some c.1).
    { apply frame_columns_lookup. eauto. }
    rewrite exceeding_columns, Hb in Hlab. injection Hlab as ->.
    assert (Hc : Exists is_Some c.2).
    { apply Exists_is_Some_cell_at. exists i, r. by rewrite <-(entry_lookup _ _ _ _ Hj). }
    destruct (high_correlations_getitem f th j c Hnd Hj Hc) as (col & Hcol & Heach).
    exists c.1, a. split; [apply high_correlations_columns; eauto|].
    exists (mean_of f j), col, (mean_of f i).
    split_and!; [by apply frame_mean_getitem|done| |by apply frame_mean_getitem|done].
    apply Heach. exists i, r. by rewrite Hidx.
Qed.

(** ** The frame of absolute coefficients *)

Lemma frame_abs_index f : index (frame_abs f) = index f.
Proof. done. Qed.

Lemma frame_abs_columns f : frame_columns (frame_abs f) = frame_columns f.
Proof. unfold frame_columns, frame_abs. simpl. by rewrite <-list_fmap_compose. Qed.

Lemma entry_frame_abs f i j : entry (frame_abs f) i j = cell_abs (entry f i j).
Proof.
  unfold entry, frame_abs. simpl. rewrite list_lookup_fmap.
  destruct (data f !! j) as [c|]; simpl; [|done].
  unfold cell_at. rewrite list_lookup_fmap. by destruct (c.2 !! i).
Qed.

Lemma entry_frame_abs_Some f i j r :
  entry (frame_abs f) i j = Some r ↔ ∃ r0, entry f i j = Some r0 ∧ r = Qabs r0.
Proof.
  rewrite entry_frame_abs. unfold cell_abs.
  destruct (entry f i j) as [r0|]; simpl; naive_solver.
Qed.

(** ** Symmetric frames *)

Lemma symmetric_entry f i j :
  symmetric f → i < length (data f) → j < length (data f) →
  entry f i j = entry f j i.
Proof.
  unfold symmetric. rewrite Forall_forall. intros Hsym Hi Hj.
  assert (Hrow := Hsym i). rewrite Forall_forall in Hrow.
  apply Hrow; apply elem_of_seq; lia.
Qed.

Lemma frame_columns_lt f j label :
  frame_columns f !! j = Some label → j < length (data f).
Proof. intros (c & Hc & _)%frame_columns_lookup. by eapply lookup_lt_Some. Qed.

(** ** Nothing exceeds the threshold *)

Lemma no_exceeding_no_drop f th :
  (∀ i j r, i < j → entry f i j = Some r → ¬ (th < r)%Q) →
  intercorrelated_features_set f th = Return [].
Proof.
  intros Hlow. unfold intercorrelated_features_set.
  destruct (frame_columns (high_correlations f th)) as [|feature cols] eqn:Hcols; [done|].
  assert (Hf : feature ∈ frame_columns (high_correlations f th)) by (rewrite Hcols; left).
  apply high_correlations_columns in Hf as (j & c & Hj & _ & Hc).
  apply Exists_is_Some_cell_at in Hc as (i & r & Hr).
  rewrite <-(entry_lookup _ _ _ _ Hj) in Hr.
  apply entry_exceeding in Hr as (Hij & _ & Hr & Hlt).
  destruct (Hlow i j r Hij Hr Hlt).
Qed.

Lemma filter_not_in_nil (ftrs : list string) : filter (λ e, e ∉ @nil string) ftrs = ftrs.
Proof.
  induction ftrs as [|e ftrs IH]; [done|].
  rewrite filter_cons_True; [by rewrite IH|]. apply not_elem_of_nil.
Qed.

Lemma no_exceeding_unchanged df ftrs th :
  (∀ i j r, i < j → entry df i j = Some r → ¬ (th < Qabs r)%Q) →
  selectNonIntercorrelated df ftrs th = Return ftrs.
Proof.
  intros Hlow. unfold selectNonIntercorrelated.
  rewrite no_exceeding_no_drop.
  - simpl. by rewrite filter_not_in_nil.
  - intros i j r Hij (r0 & Hr0 & ->)%entry_frame_abs_Some. by eapply Hlow.
Qed.

(** ** The function returns, and what it returns *)

Lemma selectNonIntercorrelated_spec df ftrs th :
  index df = frame_columns df →
  NoDup (frame_columns df) →
  ∃ dropped,
    intercorrelated_features_set (frame_abs df) th = Return dropped ∧
    (∀ x, x ∈ dropped ↔ marks (frame_abs df) th x) ∧
    selectNonIntercorrelated df ftrs th = Return (filter (λ e, e ∉ dropped) ftrs).
Proof.
  intros Hidx Hnd.
  destruct (intercorrelated_features_set_spec (frame_abs df) th) as (dropped & Hrun & Hin).
  { by rewrite frame_abs_index, frame_abs_columns. }
  { by rewrite frame_abs_columns. }
  exists dropped. split_and!; [done..|].
  unfold selectNonIntercorrelated. by rewrite Hrun.
Qed.

Lemma marks_columns f th x : marks f th x → x ∈ frame_columns f.
Proof.
  intros (i & j & a & b & r & _ & Ha & Hb & _ & _ & ->).
  unfold candidate. destruct (cell_gt _ _); by eapply list_elem_of_lookup_2.
Qed.

(** ** The centrality score *)

(** With no NaN in its column, the score of a feature is the mean of its
    absolute coefficients with all the features, itself included. *)
Lemma centrality_all_features df j c (xs : list Q) :
  data df !! j = Some c → c.2 = Some <$> xs → xs ≠ [] →
  centrality df j
  = Some (foldl Qplus 0 (Qabs <$> xs) / inject_Z (Z.of_nat (length xs)))%Q.
Proof.
  intros Hc Hxs Hne. unfold centrality, mean_of, frame_abs. simpl.
  rewrite list_lookup_fmap, Hc. simpl. rewrite Hxs. unfold nanmean.
  assert (Hpresent : omap id (cell_abs <$> (Some <$> xs)) = Qabs <$> xs).
  { clear. induction xs as [|x xs IH]; [done|]. simpl. f_equal. exact IH. }
  rewrite Hpresent. destruct xs as [|x xs]; [done|]. simpl.
  by rewrite length_fmap.
Qed.

Lemma Qlt_asym x y : (x < y)%Q → ¬ (y < x)%Q.
Proof. intros H1 H2. apply (Qlt_irrefl x). by apply Qlt_trans with y. Qed.

(** ** The function for any column mean *)

(** At the exact mean the score is the centrality of the section above. *)
Lemma score_nanmean df j : score nanmean df j = centrality df j.
Proof. done. Qed.

Lemma selectNonIntercorrelated_by_nanmean df ftrs th :
  selectNonIntercorrelated_by nanmean df ftrs th = selectNonIntercorrelated df ftrs th.
Proof. done. Qed.

Lemma frame_mean_by_columns mean f : (frame_mean_by mean f).*1 = frame_columns f.
Proof. unfold frame_mean_by, frame_columns. by rewrite <-list_fmap_compose. Qed.

Lemma frame_mean_by_getitem mean f j label :
  NoDup (frame_columns f) →
  frame_columns f !! j = Some label →
  getitem (frame_mean_by mean f) label = Return (column_mean mean f j).
Proof.
  intros Hnd (c & Hc & <-)%frame_columns_lookup.
  unfold column_mean. rewrite Hc. simpl.
  apply getitem_NoDup; [by rewrite frame_mean_by_columns|].
  unfold frame_mean_by. apply list_elem_of_fmap. exists c. split; [done|].
  by eapply list_elem_of_lookup_2.
Qed.

Lemma intercorrelated_features_set_by_spec mean f th :
  index f = frame_columns f →
  NoDup (frame_columns f) →
  ∃ dropped, intercorrelated_features_set_by mean f th = Return dropped ∧
    ∀ x, x ∈ dropped ↔ marks_by mean f th x.
Proof.
  intros Hidx Hnd. unfold intercorrelated_features_set_by.
  destruct (for_each_mark_column (frame_mean_by mean f) (high_correlations f th)
              (frame_columns (high_correlations f th)) []) as (dropped & Hrun & Hin).
  { intros feature (j & c & Hj & <- & Hc)%high_correlations_columns.
    assert (Hlab : frame_columns f !! j = Some c.1).
    { rewrite <-(exceeding_columns f th). apply frame_columns_lookup. eauto. }
    destruct (high_correlations_getitem f th j c Hnd Hj Hc) as (col & Hcol & Heach).
    exists (column_mean mean f j), col.
    split_and!; [by apply frame_mean_by_getitem|done|].
    intros each (i & r & Hi & _)%Heach.
    apply getitem_is_Return. rewrite frame_mean_by_columns, <-Hidx.
    by eapply list_elem_of_lookup_2. }
  exists dropped. split; [done|]. intros x. rewrite Hin. split.
  - intros [?%elem_of_nil|(feature & each & Hf & Hv)]; [done|].
    apply high_correlations_columns in Hf as (j & c & Hj & <- & Hc).
    assert (Hlab : frame_columns f !! j = Some c.1).
    { rewrite <-(exceeding_columns f th). apply frame_columns_lookup. eauto. }
    destruct (high_correlations_getitem f th j c Hnd Hj Hc) as (col & Hcol & Heach).
    destruct Hv as (main & col' & m & Hmain & Hcol' & He & Hm & ->).
    rewrite Hcol in Hcol'. injection Hcol' as <-.
    rewrite (frame_mean_by_getitem mean f j c.1 Hnd Hlab) in Hmain. injection Hmain as <-.
    apply Heach in He as (i & r & Hi & (Hij & _ & Hr & Hlt)%entry_exceeding).
    rewrite Hidx in Hi.
    rewrite (frame_mean_by_getitem mean f i each Hnd Hi) in Hm. injection Hm as <-.
    by exists i, j, each, c.1, r.
  - intros (i & j & a & b & r & Hij & Ha & Hb & Hr & Hlt & ->). right.
    assert (Hex : entry (exceeding f th) i j = Some r).
    { apply entry_exceeding. split_and!; try done.
      rewrite Hidx. by eapply lookup_lt_Some. }
    destruct (data (exceeding f th) !! j) as [c|] eqn:Hj;
      [|by unfold entry in Hex; rewrite Hj in Hex].
    assert (Hlab : frame_columns (exceeding f th) !! j = Some c.1).
    { apply frame_columns_lookup. eauto. }
    rewrite exceeding_columns, Hb in Hlab. injection Hlab as ->.
    assert (Hc : Exists is_Some c.2).
    { apply Exists_is_Some_cell_at. exists i, r. by rewrite <-(entry_lookup _ _ _ _ Hj). }
    destruct (high_correlations_getitem f th j c Hnd Hj Hc) as (col & Hcol & Heach).
    exists c.1, a. split; [apply high_correlations_columns; eauto|].
    exists (column_mean mean f j), col, (column_mean mean f i).
    split_and!; [by apply frame_mean_by_getitem|done| |by apply frame_mean_by_getitem|done].
    apply Heach. exists i, r. by rewrite Hidx.
Qed.

Lemma selectNonIntercorrelated_by_spec mean df ftrs th :
  index df = frame_columns df →
  NoDup (frame_columns df) →
  ∃ dropped,
    intercorrelated_features_set_by mean (frame_abs df) th = Return dropped ∧
    (∀ x, x ∈ dropped ↔ marks_by mean (frame_abs df) th x) ∧
    selectNonIntercorrelated_by mean df ftrs th = Return (filter (λ e, e ∉ dropped) ftrs).
Proof.
  intros Hidx Hnd.
  destruct (intercorrelated_features_set_by_spec mean (frame_abs df) th)
    as (dropped & Hrun & Hin).
  { by rewrite frame_abs_index, frame_abs_columns. }
  { by rewrite frame_abs_columns. }
  exists dropped. split_and!; [done..|].
  unfold selectNonIntercorrelated_by. by rewrite Hrun.
Qed.

Lemma cell_gt_asym x y : cell_gt x y = true → cell_gt y x = false.
Proof.
  destruct x as [x|], y as [y|]; simpl; try done.
  intros Hlt%bool_decide_eq_true. apply bool_decide_eq_false. by apply Qlt_asym.
Qed.

(** ** The feature with the higher score is dropped *)

(** C1. For every pair of distinct features whose absolute coefficient
    exceeds the threshold, the feature with the strictly higher centrality
    score is marked as a drop candidate, and so is absent from the output.
    The score of a feature is the mean of its column of absolute
    coefficients as [corr_matrix.mean()] returns it; the statement holds
    whatever that mean computes, the binary64 mean and the exact mean
    alike. *)
Theorem higher_centrality_is_dropped (mean : list cell → cell) df ftrs th i j a b r :
  correlation_frame df →
  i ≠ j →
  frame_columns df !! i = Some a →
  frame_columns df !! j = Some b →
  entry df i j = Some r →
  (th < Qabs r)%Q →
  cell_gt (score mean df i) (score mean df j) = true →
  ∃ dropped out,
    intercorrelated_features_set_by mean (frame_abs df) th = Return dropped ∧
    a ∈ dropped ∧
    selectNonIntercorrelated_by mean df ftrs th = Return out ∧
    a ∉ out.
Proof.
  intros (Hidx & Hnd & Hsym) Hij Ha Hb Hr Hth Hgt.
  destruct (selectNonIntercorrelated_by_spec mean df ftrs th Hidx Hnd)
    as (dropped & Hrun & Hin & Hout).
  assert (Hdrop : a ∈ dropped).
  { apply Hin. unfold score in Hgt.
    destruct (decide (i < j)) as [Hlt_ij|Hge].
    - exists i, j, a, b, (Qabs r).
      rewrite !frame_abs_columns. split_and!; try done.
      + apply entry_frame_abs_Some. eauto.
      + unfold candidate. by rewrite (cell_gt_asym _ _ Hgt).
    - exists j, i, b, a, (Qabs r).
      rewrite !frame_abs_columns. split_and!; try done; [lia| |].
      + apply entry_frame_abs_Some. exists r. split; [|done].
        rewrite <-Hr. apply symmetric_entry; [done|by eapply frame_columns_lt..].
      + unfold candidate. by rewrite Hgt. }
  exists dropped, (filter (λ e, e ∉ dropped) ftrs). split_and!; try done.
  rewrite list_elem_of_filter. tauto.
Qed.

Lemma higher_centrality_is_dropped_witness :
  ∃ dropped out,
    intercorrelated_features_set_by mean64 (frame_abs corr4) (8 # 10) = Return dropped ∧
    "c" ∈ dropped ∧
    selectNonIntercorrelated_by mean64 corr4 ["a"; "b"; "c"; "d"] (8 # 10) = Return out ∧
    "c" ∉ out.
Proof.
  apply (higher_centrality_is_dropped mean64 corr4 ["a"; "b"; "c"; "d"] (8 # 10)
           2 0 "c" "a" (9 # 10)).
  - apply (bool_decide_unpack _). vm_compute. exact I.
  - lia.
  - reflexivity.
  - reflexivity.
  - reflexivity.
  - reflexivity.
  - vm_compute. reflexivity.
Defined.

(** On [corr4] the scores of [a] and [c] are 0.69999999999999996 and
    0.70000000000000007 in binary64, so the pair marks [c] and [a] is
    retained; their exact means are equal. *)
Example rounding_decides_the_pair :
  score mean64 corr4 0 = Some (6305039478318694 # 9007199254740992)%Q ∧
  score mean64 corr4 2 = Some (6305039478318695 # 9007199254740992)%Q ∧
  selectNonIntercorrelated_by mean64 corr4 ["a"; "b"; "c"; "d"] (8 # 10)
  = Return ["a"; "d"] ∧
  score nanmean corr4 0 = Some (280 # 400)%Q ∧
  score nanmean corr4 2 = Some (2800 # 4000)%Q.
Proof. split_and!; vm_compute; reflexivity. Qed.

(** ** Below and at the threshold; order; unknown names *)

(** C3. If the absolute coefficient of every pair of distinct features is
    below the threshold, the output is the input feature list. *)
Theorem below_threshold_unchanged df ftrs th :
  (∀ i j r, i ≠ j → entry df i j = Some r → (Qabs r < th)%Q) →
  selectNonIntercorrelated df ftrs th = Return ftrs.
Proof.
  intros Hbelow. apply no_exceeding_unchanged.
  intros i j r Hij Hr. apply Qlt_asym, (Hbelow i j); [lia|done].
Qed.

Lemma below_threshold_unchanged_witness :
  selectNonIntercorrelated corr3 ["c"; "a"; "b"] (95 # 100) = Return ["c"; "a"; "b"].
Proof.
  apply below_threshold_unchanged.
  intros [|[|[|i]]] [|[|[|j]]] r Hij [= <-]; done.
Defined.

(** C4. The output is a subsequence of the feature list, in the same
    relative order, and has no duplicate when the feature list has none. *)
Theorem output_is_ordered_sublist df ftrs th :
  index df = frame_columns df →
  NoDup (frame_columns df) →
  NoDup ftrs →
  ∃ out, selectNonIntercorrelated df ftrs th = Return out ∧
         out `sublist_of` ftrs ∧ NoDup out.
Proof.
  intros Hidx Hnd Hftrs.
  destruct (selectNonIntercorrelated_spec df ftrs th Hidx Hnd) as (dropped & _ & _ & Hout).
  eexists. split_and!; [done|apply sublist_filter|by apply NoDup_filter].
Qed.

Lemma output_is_ordered_sublist_witness :
  ∃ out, selectNonIntercorrelated corr3 ["c"; "b"; "a"] (8 # 10) = Return out ∧
         out `sublist_of` ["c"; "b"; "a"] ∧ NoDup out.
Proof.
  apply output_is_ordered_sublist.
  - reflexivity.
  - apply (bool_decide_unpack _). vm_compute. exact I.
  - apply (bool_decide_unpack _). vm_compute. exact I.
Defined.

(** C5. The comparison with the threshold is strict: a feature is marked
    only through a pair whose absolute coefficient is strictly above the
    threshold, so when no pair is above it (pairs exactly at the threshold
    included) nothing is dropped. *)
Theorem threshold_is_strict df ftrs th :
  index df = frame_columns df →
  NoDup (frame_columns df) →
  ∃ dropped,
    intercorrelated_features_set (frame_abs df) th = Return dropped ∧
    (∀ x, x ∈ dropped →
       ∃ i j a b r, i < j ∧
         frame_columns df !! i = Some a ∧ frame_columns df !! j = Some b ∧
         (x = a ∨ x = b) ∧ entry df i j = Some r ∧ (th < Qabs r)%Q) ∧
    ((∀ i j r, i < j → entry df i j = Some r → (Qabs r <= th)%Q) →
       dropped = [] ∧ selectNonIntercorrelated df ftrs th = Return ftrs).
Proof.
  intros Hidx Hnd.
  destruct (selectNonIntercorrelated_spec df ftrs th Hidx Hnd)
    as (dropped & Hrun & Hin & Hout).
  exists dropped. split_and!; [done|..].
  - intros x (i & j & a & b & r & Hij & Ha & Hb & Hr & Hlt & ->)%Hin.
    rewrite frame_abs_columns in Ha, Hb.
    apply entry_frame_abs_Some in Hr as (r0 & Hr0 & ->).
    exists i, j, a, b, r0. split_and!; try done.
    unfold candidate. destruct (cell_gt _ _); tauto.
  - intros Hle.
    assert (Hlow : ∀ i j r, i < j → entry df i j = Some r → ¬ (th < Qabs r)%Q).
    { intros i j r Hij Hr. apply Qle_not_lt. by eapply Hle. }
    split; [|by apply no_exceeding_unchanged].
    rewrite no_exceeding_no_drop in Hrun; [congruence|].
    intros i j r Hij (r0 & Hr0 & ->)%entry_frame_abs_Some. by eapply Hlow.
Qed.

Lemma threshold_is_strict_witness :
  ∃ dropped,
    intercorrelated_features_set (frame_abs corr3) (9 # 10) = Return dropped ∧
    (∀ x, x ∈ dropped →
       ∃ i j a b r, i < j ∧
         frame_columns corr3 !! i = Some a ∧ frame_columns corr3 !! j = Some b ∧
         (x = a ∨ x = b) ∧ entry corr3 i j = Some r ∧ (9 # 10 < Qabs r)%Q) ∧
    ((∀ i j r, i < j → entry corr3 i j = Some r → (Qabs r <= 9 # 10)%Q) →
       dropped = [] ∧
       selectNonIntercorrelated corr3 ["a"; "b"; "c"] (9 # 10) = Return ["a"; "b"; "c"]).
Proof.
  apply threshold_is_strict.
  - reflexivity.
  - apply (bool_decide_unpack _). vm_compute. exact I.
Defined.

(** Of two perfectly correlated features exactly one is retained. *)
Example total_redundancy :
  selectNonIntercorrelated corr2 ["a"; "b"] (9 # 10) = Return ["b"].
Proof. reflexivity. Qed.

(** The pair [a], [b] of [corr3] sits exactly at the threshold 0.9 and
    nothing is dropped; just below it, [a] is. *)
Example at_threshold_kept :
  selectNonIntercorrelated corr3 ["a"; "b"; "c"] (9 # 10) = Return ["a"; "b"; "c"] ∧
  selectNonIntercorrelated corr3 ["a"; "b"; "c"] (89 # 100) = Return ["b"; "c"].
Proof. split; reflexivity. Qed.

(** C9. A name of the feature list that is not a column of the matrix is
    retained: the drop candidates are all columns of the matrix. *)
Theorem unknown_names_retained df ftrs th :
  index df = frame_columns df →
  NoDup (frame_columns df) →
  ∃ dropped out,
    intercorrelated_features_set (frame_abs df) th = Return dropped ∧
    selectNonIntercorrelated df ftrs th = Return out ∧
    dropped ⊆ frame_columns df ∧
    ∀ name, name ∈ ftrs → name ∉ frame_columns df → name ∈ out.
Proof.
  intros Hidx Hnd.
  destruct (selectNonIntercorrelated_spec df ftrs th Hidx Hnd)
    as (dropped & Hrun & Hin & Hout).
  assert (Hsub : dropped ⊆ frame_columns df).
  { intros x Hx%Hin%marks_columns. by rewrite frame_abs_columns in Hx. }
  exists dropped, (filter (λ e, e ∉ dropped) ftrs). split_and!; try done.
  intros name Hname Hunknown. apply list_elem_of_filter. split; [|done].
  intros Hd. by apply Hunknown, Hsub.
Qed.

Lemma unknown_names_retained_witness :
  ∃ dropped out,
    intercorrelated_features_set (frame_abs corr3) (8 # 10) = Return dropped ∧
    selectNonIntercorrelated corr3 ["zz"; "b"; "a"] (8 # 10) = Return out ∧
    dropped ⊆ frame_columns corr3 ∧
    ∀ name, name ∈ ["zz"; "b"; "a"] → name ∉ frame_columns corr3 → name ∈ out.
Proof.
  apply unknown_names_retained.
  - reflexivity.
  - apply (bool_decide_unpack _). vm_compute. exact I.
Defined.

(** ** Selecting columns of the matrix *)

Lemma getitem_zip {A : Type} (idx : list string) : ∀ (vals : list A) i a,
  NoDup idx → idx !! i = Some a →
  getitem (zip idx vals) a = from_option Return (Raise (KeyError a)) (vals !! i).
Proof.
  induction idx as [|k idx IH]; intros vals i a Hnd Hi; [done|].
  apply NoDup_cons in Hnd as [Hk Hnd].
  destruct vals as [|v vals]; [done|]. simpl. case_decide as Hka.
  - subst k. destruct i as [|i]; [done|]. simpl in Hi.
    destruct Hk. by eapply list_elem_of_lookup_2.
  - destruct i as [|i]; simpl in Hi; [congruence|]. simpl. by apply IH.
Qed.

Lemma corr_of_entry f i j a b :
  index f = frame_columns f → NoDup (frame_columns f) →
  frame_columns f !! i = Some a → frame_columns f !! j = Some b →
  corr_of f a b = entry f i j.
Proof.
  intros Hidx Hnd Ha (c & Hc & <-)%frame_columns_lookup.
  unfold corr_of, frame_getitem.
  rewrite (getitem_NoDup (data f) c.1 c.2); [|done|].
  - simpl. rewrite (getitem_zip _ _ i); [|by rewrite Hidx..].
    rewrite (entry_lookup _ _ _ _ Hc). unfold cell_at.
    by destruct (c.2 !! i).
  - destruct c. by eapply list_elem_of_lookup_2.
Qed.

Lemma entry_restrict df names p q :
  entry (restrict df names) p q = a ← names !! p; b ← names !! q; corr_of df a b.
Proof.
  unfold entry, restrict. simpl. rewrite list_lookup_fmap.
  destruct (names !! q) as [b|]; simpl.
  - unfold cell_at. rewrite list_lookup_fmap. by destruct (names !! p).
  - by destruct (names !! p).
Qed.

Lemma candidate_cases main m feature each :
  candidate main m feature each = feature ∨ candidate main m feature each = each.
Proof. unfold candidate. destruct (cell_gt main m); tauto. Qed.

(** Of every pair above the threshold one feature at least is marked. *)
Lemma exceeding_pair_marked df th i j a b r :
  correlation_frame df →
  i ≠ j →
  frame_columns df !! i = Some a → frame_columns df !! j = Some b →
  entry df i j = Some r → (th < Qabs r)%Q →
  marks (frame_abs df) th a ∨ marks (frame_abs df) th b.
Proof.
  intros (Hidx & Hnd & Hsym) Hij Ha Hb Hr Hth.
  destruct (decide (i < j)) as [Hlt|Hge].
  - destruct (candidate_cases (mean_of (frame_abs df) j) (mean_of (frame_abs df) i) b a)
      as [Hc|Hc]; [right|left];
      exists i, j, a, b, (Qabs r); rewrite !frame_abs_columns;
      (split_and!; try done; apply entry_frame_abs_Some; eauto).
  - assert (Hr' : entry df j i = Some r).
    { rewrite <-Hr. apply symmetric_entry; [done|by eapply frame_columns_lt..]. }
    destruct (candidate_cases (mean_of (frame_abs df) i) (mean_of (frame_abs df) j) a b)
      as [Hc|Hc]; [left|right];
      exists j, i, b, a, (Qabs r); rewrite !frame_abs_columns;
      (split_and!; try done; [lia|apply entry_frame_abs_Some; eauto]).
Qed.

(** ** Filtering twice *)

(** C2. Filtering again the retained features, on the matrix restricted to
    them and with the same threshold, returns them unchanged. *)
Theorem refiltering_is_idempotent df ftrs th :
  correlation_frame df →
  NoDup ftrs →
  ftrs ⊆ frame_columns df →
  ∃ out, selectNonIntercorrelated df ftrs th = Return out ∧
         selectNonIntercorrelated (restrict df out) out th = Return out.
Proof.
  intros Hdf Hftrs Hsub. assert (Hdf' := Hdf). destruct Hdf' as (Hidx & Hnd & Hsym).
  destruct (selectNonIntercorrelated_spec df ftrs th Hidx Hnd)
    as (dropped & Hrun & Hin & Hout).
  eexists. split; [done|].
  set (out := filter (λ e, e ∉ dropped) ftrs).
  assert (Hout_nd : NoDup out) by by apply NoDup_filter.
  apply no_exceeding_unchanged. intros p q r Hpq Hr Hth.
  rewrite entry_restrict in Hr.
  destruct (out !! p) as [a|] eqn:Hp; [|done].
  destruct (out !! q) as [b|] eqn:Hq; [|done]. simpl in Hr.
  assert (Ha : a ∈ out) by by eapply list_elem_of_lookup_2.
  assert (Hb : b ∈ out) by by eapply list_elem_of_lookup_2.
  apply list_elem_of_filter in Ha as [Ha_kept Ha], Hb as [Hb_kept Hb].
  apply Hsub, list_elem_of_lookup in Ha as [i Hi], Hb as [j Hj].
  rewrite (corr_of_entry df i j a b Hidx Hnd Hi Hj) in Hr.
  assert (Hij : i ≠ j).
  { intros ->. assert (a = b) as -> by congruence.
    assert (p = q) by by eapply NoDup_lookup. lia. }
  destruct (exceeding_pair_marked df th i j a b r Hdf Hij Hi Hj Hr Hth) as [Hm|Hm];
    apply Hin in Hm; done.
Qed.

Lemma refiltering_is_idempotent_witness :
  ∃ out, selectNonIntercorrelated corr3 ["c"; "b"; "a"] (8 # 10) = Return out ∧
         selectNonIntercorrelated (restrict corr3 out) out (8 # 10) = Return out.
Proof.
  apply refiltering_is_idempotent.
  - apply (bool_decide_unpack _). vm_compute. exact I.
  - apply (bool_decide_unpack _). vm_compute. exact I.
  - apply (bool_decide_unpack _). vm_compute. exact I.
Defined.

(** ** Columns outside the feature list; no validation *)

(** C6, as stated, fails: the single feature [a] of the list is dropped
    because of the column [b] of the matrix. *)
Lemma single_feature_list_dropped :
  correlation_frame corr3 ∧ "a" ∈ frame_columns corr3 ∧
  selectNonIntercorrelated corr3 ["a"] (8 # 10) = Return [] ∧
  selectNonIntercorrelated corr3 ["a"] (8 # 10) ≠ Return ["a"].
Proof.
  split_and!; [|by apply (bool_decide_unpack _)|reflexivity|done].
  apply (bool_decide_unpack _). vm_compute. exact I.
Qed.

(** C6, amended. When the matrix has a single column, the list naming that
    feature is returned unchanged, for every threshold. *)
Theorem single_feature_unchanged df a th :
  frame_columns df = [a] →
  selectNonIntercorrelated df [a] th = Return [a].
Proof.
  intros Hcols. apply no_exceeding_unchanged.
  intros i j r Hij Hr%entry_Some_lt.
  assert (length (data df) = 1); [|lia].
  unfold frame_columns in Hcols.
  by rewrite <-(length_fmap fst), Hcols.
Qed.

Lemma single_feature_unchanged_witness :
  selectNonIntercorrelated corr1 ["a"] (1 # 2) = Return ["a"].
Proof. apply single_feature_unchanged. reflexivity. Defined.

(** C7, as stated, fails: a name absent from the matrix is not rejected, the
    call returns a list. *)
Lemma absent_name_not_rejected :
  "zz" ∈ ["b"; "zz"] ∧ ("zz" ∉ frame_columns corr3) ∧
  selectNonIntercorrelated corr3 ["b"; "zz"] (8 # 10) = Return ["b"; "zz"] ∧
  ∀ e, selectNonIntercorrelated corr3 ["b"; "zz"] (8 # 10) ≠ Raise e.
Proof.
  split_and!; [by apply (bool_decide_unpack _)| |reflexivity|done].
  apply (bool_decide_unpack _). vm_compute. exact I.
Qed.

(** C7, amended. The function validates nothing and raises nothing: it
    returns a sublist of the feature list, in which a name absent from the
    matrix is kept. *)
Theorem returns_without_validation df ftrs th :
  index df = frame_columns df →
  NoDup (frame_columns df) →
  (∀ e, selectNonIntercorrelated df ftrs th ≠ Raise e) ∧
  ∃ out, selectNonIntercorrelated df ftrs th = Return out ∧
         out `sublist_of` ftrs ∧
         ∀ name, name ∈ ftrs → name ∉ frame_columns df → name ∈ out.
Proof.
  intros Hidx Hnd.
  destruct (selectNonIntercorrelated_spec df ftrs th Hidx Hnd)
    as (dropped & _ & Hin & Hout).
  split; [intros e; by rewrite Hout|].
  eexists. split_and!; [done|apply sublist_filter|].
  intros name Hname Hunknown. apply list_elem_of_filter. split; [|done].
  intros Hd%Hin%marks_columns. by rewrite frame_abs_columns in Hd.
Qed.

Lemma returns_without_validation_witness :
  (∀ e, selectNonIntercorrelated corr3 ["a"; "zz"] (8 # 10) ≠ Raise e) ∧
  ∃ out, selectNonIntercorrelated corr3 ["a"; "zz"] (8 # 10) = Return out ∧
         out `sublist_of` ["a"; "zz"] ∧
         ∀ name, name ∈ ["a"; "zz"] → name ∉ frame_columns corr3 → name ∈ out.
Proof.
  apply returns_without_validation.
  - reflexivity.
  - apply (bool_decide_unpack _). vm_compute. exact I.
Defined.

(** C10. The drop candidates come from all the columns of the matrix, not
    only those of the feature list: [a] is excluded although its only
    companion in the list, [c], is below the threshold, because of its
    coefficient with the column [b] outside the list; on the matrix
    restricted to the list [a] is retained. *)
Theorem outside_column_drops_feature :
  ∃ df ftrs th feature out,
    correlation_frame df ∧ NoDup ftrs ∧ ftrs ⊆ frame_columns df ∧
    feature ∈ ftrs ∧
    (∀ other, other ∈ ftrs → other ≠ feature →
       ∃ r, corr_of df feature other = Some r ∧ (Qabs r <= th)%Q) ∧
    selectNonIntercorrelated df ftrs th = Return out ∧
    (feature ∉ out) ∧
    (∃ outside r, outside ∈ frame_columns df ∧ (outside ∉ ftrs) ∧
       corr_of df feature outside = Some r ∧ (th < Qabs r)%Q) ∧
    selectNonIntercorrelated (restrict df ftrs) ftrs th = Return ftrs.
Proof.
  exists corr3, ["a"; "c"], (8 # 10)%Q, "a", ["c"].
  split_and!; try (apply (bool_decide_unpack _); vm_compute; exact I).
  - intros other [->|[->|[]%elem_of_nil]%elem_of_cons]%elem_of_cons Hne; [done|].
    exists (3 # 10)%Q. split; [reflexivity|]. by vm_compute.
  - reflexivity.
  - exists "b", (-9 # 10)%Q.
    split_and!; apply (bool_decide_unpack _); vm_compute; exact I.
  - reflexivity.
Qed.

(** ** The call on the Python heap *)

(** *** The heap of the caller is kept *)

Lemma triple_bind {A B : Type} P (m : exec A) Q (k : A → exec B) R E :
  triple P m Q E → (∀ v, triple (Q v) (k v) R E) → triple P (m ≫= k) R E.
Proof.
  intros Hm Hk σ HP. unfold mbind, exec_bind. specialize (Hm σ HP).
  destruct (m σ) as [[v|e] σ']; [by apply Hk|done].
Qed.

Lemma triple_ret {A : Type} (P : state → Prop) (v : A) E : triple P (mret v) (λ _, P) E.
Proof. by intros σ HP. Qed.

Lemma triple_lift {A : Type} (P : state → Prop) (r : result A) : triple P (lift r) (λ _, P) P.
Proof. intros σ HP. unfold lift. by destruct r. Qed.

Lemma triple_read_list (P : state → Prop) l : triple P (read_list l) (λ _, P) P.
Proof. intros σ HP. unfold read_list. by destruct (heap σ !! l) as [[]|]. Qed.

Lemma triple_read_frame (P : state → Prop) l : triple P (read_frame l) (λ _, P) P.
Proof. intros σ HP. unfold read_frame. by destruct (heap σ !! l) as [[]|]. Qed.

Lemma triple_for_each_run {A : Type} (P : state → Prop) (body : A → exec unit) xs :
  (∀ x, triple P (body x) (λ _, P) P) →
  triple P (for_each_run body xs) (λ _, P) P.
Proof.
  intros Hbody. induction xs as [|x xs IH]; simpl.
  - apply triple_ret.
  - eapply triple_bind; [apply Hbody|]. intros []. apply IH.
Qed.

Lemma triple_alloc h0 o :
  triple (extends h0) (alloc o) (λ l σ, extends h0 σ ∧ length h0 ≤ l) (extends h0).
Proof.
  intros σ Hext. unfold alloc, extends in *. simpl. split.
  - by apply prefix_app_r.
  - by apply prefix_length.
Qed.

Lemma triple_print h0 xs : triple (extends h0) (print xs) (λ _, extends h0) (extends h0).
Proof. by intros σ Hext. Qed.

(** [append] on a list allocated after [h0] leaves [h0] alone. *)
Lemma triple_list_append h0 l x :
  length h0 ≤ l →
  triple (extends h0) (list_append l x) (λ _, extends h0) (extends h0).
Proof.
  intros Hl σ [k Hk]. unfold list_append, extends.
  destruct (heap σ !! l) as [[f|xs]|]; simpl; try by exists k.
  rewrite Hk, insert_app_r_alt by done. by eexists.
Qed.

Lemma triple_append_new_run h0 l x :
  length h0 ≤ l →
  triple (extends h0) (append_new_run l x) (λ _, extends h0) (extends h0).
Proof.
  intros Hl. unfold append_new_run.
  eapply triple_bind; [apply triple_read_list|]. intros present.
  case_decide; [apply triple_ret|by apply triple_list_append].
Qed.

Lemma triple_mark_pair_run h0 means feature main l each :
  length h0 ≤ l →
  triple (extends h0) (mark_pair_run means feature main l each)
    (λ _, extends h0) (extends h0).
Proof.
  intros Hl. unfold mark_pair_run.
  eapply triple_bind; [apply triple_lift|]. intros m.
  destruct (cell_gt main m); by apply triple_append_new_run.
Qed.

Lemma triple_mark_column_run h0 means high l feature :
  length h0 ≤ l →
  triple (extends h0) (mark_column_run means high l feature)
    (λ _, extends h0) (extends h0).
Proof.
  intros Hl. unfold mark_column_run.
  eapply triple_bind; [apply triple_lift|]. intros main.
  eapply triple_bind; [apply triple_lift|]. intros col.
  apply triple_for_each_run. intros each. by apply triple_mark_pair_run.
Qed.

Lemma triple_selectNonIntercorrelated_run h0 df_in ftrs th :
  triple (extends h0) (selectNonIntercorrelated_run df_in ftrs th)
    (λ out σ, extends h0 σ ∧ length h0 ≤ out) (extends h0).
Proof.
  unfold selectNonIntercorrelated_run.
  eapply triple_bind; [apply triple_read_frame|]. intros df.
  eapply triple_bind; [apply triple_alloc|]. intros set σ [Hext Hset]. revert σ Hext.
  change (triple (extends h0)
    (for_each_run
       (mark_column_run (frame_mean (frame_abs df))
          (high_correlations (frame_abs df) th) set)
       (frame_columns (high_correlations (frame_abs df) th));;
     names ← read_list ftrs;
     dropped ← read_list set;
     out ← alloc (OList (filter (λ e, e ∉ dropped) names));
     print (filter (λ e, e ∉ dropped) names);; mret out)
    (λ out σ, extends h0 σ ∧ length h0 ≤ out) (extends h0)).
  eapply triple_bind.
  { apply triple_for_each_run. intros feature. by apply triple_mark_column_run. }
  intros [].
  eapply triple_bind; [apply triple_read_list|]. intros names.
  eapply triple_bind; [apply triple_read_list|]. intros dropped.
  eapply triple_bind; [apply triple_alloc|]. intros out σ [Hext Hout]. revert σ Hext.
  change (triple (extends h0) (print (filter (λ e, e ∉ dropped) names);; mret out)
            (λ out σ, extends h0 σ ∧ length h0 ≤ out) (extends h0)).
  eapply triple_bind; [apply triple_print|]. intros [] σ Hext. done.
Qed.

(** *** The call on the heap computes what the function computes *)

Lemma bind_Return {A B : Type} (m : exec A) (k : A → exec B) σ v σ' :
  m σ = (Return v, σ') → (m ≫= k) σ = k v σ'.
Proof. intros Hm. unfold mbind, exec_bind. by rewrite Hm. Qed.

Lemma set_at_id l xs σ : heap σ !! l = Some (OList xs) → set_at l xs σ = σ.
Proof. intros Hl. unfold set_at. rewrite list_insert_id by done. by destruct σ. Qed.

Lemma set_at_set_at l xs ys σ : set_at l ys (set_at l xs σ) = set_at l ys σ.
Proof. unfold set_at. simpl. by rewrite list_insert_insert_eq. Qed.

Lemma set_at_lookup l xs ys σ :
  heap σ !! l = Some (OList xs) → heap (set_at l ys σ) !! l = Some (OList ys).
Proof.
  intros Hl. unfold set_at. simpl. apply list_lookup_insert_eq.
  by eapply lookup_lt_Some.
Qed.

Lemma append_new_run_spec l x xs σ :
  heap σ !! l = Some (OList xs) →
  append_new_run l x σ = (Return (), set_at l (append_new x xs) σ).
Proof.
  intros Hl. unfold append_new_run, append_new.
  erewrite bind_Return; [|by unfold read_list; rewrite Hl].
  case_decide.
  - by rewrite set_at_id.
  - unfold list_append. by rewrite Hl.
Qed.

Lemma for_each_run_mark_pair means feature main l xs : ∀ set0 set' σ,
  heap σ !! l = Some (OList set0) →
  for_each (mark_pair means feature main) xs set0 = Return set' →
  for_each_run (mark_pair_run means feature main l) xs σ = (Return (), set_at l set' σ).
Proof.
  induction xs as [|each xs IH]; intros set0 set' σ Hl Hrun; cbn [for_each] in Hrun.
  - injection Hrun as <-. simpl. by rewrite set_at_id.
  - destruct (mark_pair means feature main set0 each) as [set1|e] eqn:Hpair;
      simpl in Hrun; [|done].
    unfold mark_pair in Hpair.
    destruct (getitem means each) as [m|e] eqn:Hm; simpl in Hpair; [|done].
    assert (Hstep : mark_pair_run means feature main l each σ
                    = (Return (), set_at l set1 σ)).
    { unfold mark_pair_run.
      erewrite bind_Return; [|by unfold lift; rewrite Hm].
      destruct (cell_gt main m); injection Hpair as <-; by apply append_new_run_spec. }
    cbn [for_each_run]. erewrite bind_Return; [|exact Hstep].
    erewrite IH; [by rewrite set_at_set_at|by eapply set_at_lookup|done].
Qed.

Lemma for_each_run_mark_column means high l cols : ∀ set0 set' σ,
  heap σ !! l = Some (OList set0) →
  for_each (mark_column means high) cols set0 = Return set' →
  for_each_run (mark_column_run means high l) cols σ = (Return (), set_at l set' σ).
Proof.
  induction cols as [|feature cols IH]; intros set0 set' σ Hl Hrun; cbn [for_each] in Hrun.
  - injection Hrun as <-. simpl. by rewrite set_at_id.
  - destruct (mark_column means high set0 feature) as [set1|e] eqn:Hcol;
      simpl in Hrun; [|done].
    unfold mark_column in Hcol.
    destruct (getitem means feature) as [main|e] eqn:Hmain; simpl in Hcol; [|done].
    destruct (frame_getitem high feature) as [col|e] eqn:Hget; simpl in Hcol; [|done].
    assert (Hstep : mark_column_run means high l feature σ = (Return (), set_at l set1 σ)).
    { unfold mark_column_run.
      erewrite bind_Return; [|by unfold lift; rewrite Hmain].
      erewrite bind_Return; [|by unfold lift; rewrite Hget].
      by eapply for_each_run_mark_pair. }
    cbn [for_each_run]. erewrite bind_Return; [|exact Hstep].
    erewrite IH; [by rewrite set_at_set_at|by eapply set_at_lookup|done].
Qed.

Lemma selectNonIntercorrelated_run_spec df_in ftrs th σ df names dropped :
  heap σ !! df_in = Some (OFrame df) →
  heap σ !! ftrs = Some (OList names) →
  intercorrelated_features_set (frame_abs df) th = Return dropped →
  selectNonIntercorrelated_run df_in ftrs th σ
  = (Return (S (length (heap σ))),
     mkState (heap σ ++ [OList dropped; OList (filter (λ e, e ∉ dropped) names)])
             (stdout σ ++ [filter (λ e, e ∉ dropped) names])).
Proof.
  intros Hdf Hftrs Hdropped. unfold selectNonIntercorrelated_run.
  erewrite bind_Return; [|by unfold read_frame; rewrite Hdf].
  erewrite bind_Return; [|reflexivity].
  set (σ1 := mkState (heap σ ++ [OList []]) (stdout σ)).
  assert (Hset : heap σ1 !! length (heap σ) = Some (OList [])).
  { simpl. by rewrite list_lookup_middle. }
  erewrite bind_Return;
    [|by eapply for_each_run_mark_column; [exact Hset|exact Hdropped]].
  assert (Hσ2 : set_at (length (heap σ)) dropped σ1
                = mkState (heap σ ++ [OList dropped]) (stdout σ)).
  { unfold set_at, σ1. simpl. rewrite insert_app_r_alt by done.
    by rewrite Nat.sub_diag. }
  rewrite Hσ2.
  erewrite bind_Return;
    [|by unfold read_list; simpl; rewrite lookup_app_l, Hftrs by by eapply lookup_lt_Some].
  erewrite bind_Return;
    [|by unfold read_list; simpl; rewrite list_lookup_middle].
  erewrite bind_Return; [|reflexivity].
  erewrite bind_Return; [|reflexivity].
  unfold mret, exec_ret. simpl. rewrite length_app, Nat.add_1_r.
  by rewrite <-app_assoc.
Qed.

(** On a heap holding the frame and the feature list, the call returns a
    reference to a new list holding what the function returns. *)
Lemma selectNonIntercorrelated_run_refines df_in ftrs th σ df names out :
  heap σ !! df_in = Some (OFrame df) →
  heap σ !! ftrs = Some (OList names) →
  selectNonIntercorrelated df names th = Return out →
  ∃ ref σ',
    selectNonIntercorrelated_run df_in ftrs th σ = (Return ref, σ') ∧
    heap σ !! ref = None ∧ heap σ' !! ref = Some (OList out) ∧
    stdout σ' = stdout σ ++ [out].
Proof.
  intros Hdf Hftrs Hout. unfold selectNonIntercorrelated in Hout.
  destruct (intercorrelated_features_set (frame_abs df) th) as [dropped|e] eqn:Hdropped;
    simpl in Hout; [|done].
  injection Hout as <-.
  eexists _, _. split_and!.
  - by eapply selectNonIntercorrelated_run_spec.
  - apply lookup_ge_None. lia.
  - simpl. rewrite lookup_app_r by lia.
    replace (S (length (heap σ)) - length (heap σ)) with 1 by lia. done.
  - done.
Qed.

(** C8. The call leaves its two arguments as they were: whether it returns
    or raises, the data frame and the feature list are unchanged, as is
    every other object of the caller's heap; the list it returns is newly
    allocated. *)
Theorem arguments_unchanged df_in ftrs th σ df names :
  heap σ !! df_in = Some (OFrame df) →
  heap σ !! ftrs = Some (OList names) →
  heap (selectNonIntercorrelated_run df_in ftrs th σ).2 !! df_in = Some (OFrame df) ∧
  heap (selectNonIntercorrelated_run df_in ftrs th σ).2 !! ftrs = Some (OList names) ∧
  heap σ `prefix_of` heap (selectNonIntercorrelated_run df_in ftrs th σ).2 ∧
  ∀ out, (selectNonIntercorrelated_run df_in ftrs th σ).1 = Return out →
         heap σ !! out = None.
Proof.
  intros Hdf Hftrs.
  assert (Hrun := triple_selectNonIntercorrelated_run (heap σ) df_in ftrs th σ).
  unfold extends in Hrun.
  destruct (selectNonIntercorrelated_run df_in ftrs th σ) as [[ref|e] σ'];
    simpl; [destruct Hrun as [Hext Href]; [done|]|assert (Hext := Hrun (reflexivity _))].
  - split_and!; [by eapply prefix_lookup_Some..|done|].
    intros out [= <-]. by apply lookup_ge_None.
  - split_and!; [by eapply prefix_lookup_Some..|done|done].
Qed.

Lemma arguments_unchanged_witness :
  heap (selectNonIntercorrelated_run 1 2 (8 # 10) caller_state).2 !! 1 = Some (OFrame corr3) ∧
  heap (selectNonIntercorrelated_run 1 2 (8 # 10) caller_state).2 !! 2
    = Some (OList ["a"; "b"; "c"]) ∧
  heap caller_state `prefix_of` heap (selectNonIntercorrelated_run 1 2 (8 # 10) caller_state).2 ∧
  ∀ out, (selectNonIntercorrelated_run 1 2 (8 # 10) caller_state).1 = Return out →
         heap caller_state !! out = None.
Proof.
  apply (arguments_unchanged 1 2 (8 # 10) caller_state corr3 ["a"; "b"; "c"]).
  - reflexivity.
  - reflexivity.
Defined.

(** The run of the example: the list of drop candidates and the result are
    the two new objects, and the result is printed. *)
Example caller_state_run :
  selectNonIntercorrelated_run 1 2 (8 # 10) caller_state
  = (Return 4,
     mkState (heap caller_state ++ [OList ["a"]; OList ["b"; "c"]]) [["b"; "c"]]).
Proof. reflexivity. Qed.

(** * Further properties of the filter *)

(** ** The retained features *)

(** Two retained features of the matrix are never above the threshold. *)
Theorem retained_pairwise_below df ftrs th :
  correlation_frame df →
  ∃ out, selectNonIntercorrelated df ftrs th = Return out ∧
    ∀ i j a b r,
      a ∈ out → b ∈ out → i ≠ j →
      frame_columns df !! i = Some a → frame_columns df !! j = Some b →
      entry df i j = Some r → (Qabs r <= th)%Q.
Proof.
  intros Hdf. assert (Hdf' := Hdf). destruct Hdf' as (Hidx & Hnd & Hsym).
  destruct (selectNonIntercorrelated_spec df ftrs th Hidx Hnd)
    as (dropped & Hrun & Hin & Hout).
  eexists. split; [done|].
  intros i j a b r [Ha _]%list_elem_of_filter [Hb _]%list_elem_of_filter Hij Hi Hj Hr.
  apply Qnot_lt_le. intros Hth.
  destruct (exceeding_pair_marked df th i j a b r Hdf Hij Hi Hj Hr Hth) as [Hm|Hm];
    apply Hin in Hm; done.
Qed.

Lemma retained_pairwise_below_witness :
  ∃ out, selectNonIntercorrelated corr3 ["a"; "b"; "c"] (8 # 10) = Return out ∧
    ∀ i j a b r,
      a ∈ out → b ∈ out → i ≠ j →
      frame_columns corr3 !! i = Some a → frame_columns corr3 !! j = Some b →
      entry corr3 i j = Some r → (Qabs r <= 8 # 10)%Q.
Proof.
  apply retained_pairwise_below.
  apply (bool_decide_unpack _). vm_compute. exact I.
Defined.

Lemma nanmean_is_Some (vs : list cell) i r :
  vs !! i = Some (Some r) → is_Some (nanmean vs).
Proof.
  intros Hi. unfold nanmean.
  assert (Hr : r ∈ omap id vs).
  { apply list_elem_of_omap. exists (Some r). split; [|done].
    by eapply list_elem_of_lookup_2. }
  destruct (omap id vs); [by apply elem_of_nil in Hr|by eexists].
Qed.

Lemma mean_of_is_Some f i j r : entry f i j = Some r → is_Some (mean_of f j).
Proof.
  unfold entry, mean_of, cell_at.
  destruct (data f !! j) as [c|]; simpl; [|done].
  destruct (c.2 !! i) as [[r'|]|] eqn:Hi; simpl; [|done..].
  intros _. by eapply nanmean_is_Some.
Qed.

Lemma preferred_irrefl f k : ¬ preferred f k k.
Proof.
  unfold preferred. destruct (mean_of f k) as [m|]; [|tauto].
  intros [Hlt|[_ Hlt]]; [lra|lia].
Qed.

Lemma preferred_trans f k d e : preferred f k d → preferred f d e → preferred f k e.
Proof.
  unfold preferred.
  destruct (mean_of f k) as [mk|], (mean_of f d) as [md|], (mean_of f e) as [me|];
    try done.
  intros [H1|[H1 H1']] [H2|[H2 H2']]; try (left; lra).
  right. split; [lra|lia].
Qed.

(** A finite non-empty list has an element to which no other is preferred. *)
Lemma preferred_minimal f (ps : list nat) :
  ps ≠ [] → ∃ m, m ∈ ps ∧ ∀ k, k ∈ ps → ¬ preferred f k m.
Proof.
  induction ps as [|p ps IH]; [done|]. intros _.
  destruct ps as [|q ps].
  - exists p. split; [left|].
    intros k ->%list_elem_of_singleton. apply preferred_irrefl.
  - destruct IH as (m & Hm & Hmin); [done|].
    assert (Hdec : preferred f p m ∨ ¬ preferred f p m).
    { unfold preferred. destruct (mean_of f p) as [mp|], (mean_of f m) as [mm|];
        [|right; tauto..].
      destruct (Qlt_le_dec mp mm) as [?|Hle]; [by left; left|].
      destruct (Qeq_dec mp mm) as [Heq|Hne].
      - destruct (decide (m < p)) as [?|Hge]; [by left; right|].
        right. intros [?|[_ ?]]; [lra|lia].
      - right. intros [?|[? _]]; [lra|done]. }
    destruct Hdec as [Hpm|Hpm].
    + exists p. split; [left|]. intros k [->|Hk]%elem_of_cons.
      * apply preferred_irrefl.
      * intros Hkp. apply (Hmin k Hk). by eapply preferred_trans.
    + exists m. split; [by right|]. intros k [->|Hk]%elem_of_cons; [done|by apply Hmin].
Qed.

(** The feature marked by a pair is the one that is not preferred. *)
Lemma marked_not_preferred df th x :
  correlation_frame df →
  marks (frame_abs df) th x →
  ∃ k d, frame_columns df !! d = Some x ∧ k < length (data df) ∧
         preferred (frame_abs df) k d.
Proof.
  intros (Hidx & Hnd & Hsym) (i & j & a & b & r & Hij & Ha & Hb & Hr & Hlt & ->).
  rewrite frame_abs_columns in Ha, Hb.
  assert (Hi := frame_columns_lt _ _ _ Ha). assert (Hj := frame_columns_lt _ _ _ Hb).
  assert (Hr' : entry (frame_abs df) j i = Some r).
  { rewrite <-Hr, !entry_frame_abs. f_equal. by apply symmetric_entry. }
  destruct (mean_of_is_Some _ _ _ _ Hr) as [mj Hmj].
  destruct (mean_of_is_Some _ _ _ _ Hr') as [mi Hmi].
  unfold candidate, preferred. rewrite Hmj, Hmi. simpl. case_bool_decide as Hgt.
  - exists i, j. rewrite Hmi, Hmj. split_and!; [done..|by left].
  - exists j, i. rewrite Hmi, Hmj. split_and!; [done..|].
    destruct (Qlt_le_dec mj mi) as [?|Hle]; [by left|].
    right. split; [lra|done].
Qed.

(** When the feature list covers the columns of a non-empty matrix, as in
    the call of the notebook ([features = data_all.columns]), the filter
    never drops everything. *)
Theorem some_feature_retained df ftrs th :
  correlation_frame df →
  frame_columns df ≠ [] →
  frame_columns df ⊆ ftrs →
  ∃ out, selectNonIntercorrelated df ftrs th = Return out ∧ out ≠ [].
Proof.
  intros Hdf Hne Hsub. assert (Hdf' := Hdf). destruct Hdf' as (Hidx & Hnd & Hsym).
  destruct (selectNonIntercorrelated_spec df ftrs th Hidx Hnd)
    as (dropped & Hrun & Hin & Hout).
  eexists. split; [done|].
  destruct (preferred_minimal (frame_abs df) (seq 0 (length (data df))))
    as (m & [_ Hm]%elem_of_seq & Hmin).
  { destruct (data df) eqn:Hdata; [|done]. by unfold frame_columns in Hne; rewrite Hdata in Hne. }
  destruct (lookup_lt_is_Some_2 (frame_columns df) m) as [x Hx].
  { unfold frame_columns. by rewrite length_fmap. }
  assert (Hkept : x ∈ filter (λ e, e ∉ dropped) ftrs); [|by intros Heq; rewrite Heq in Hkept; apply elem_of_nil in Hkept].
  apply list_elem_of_filter. split; [|by eapply Hsub, list_elem_of_lookup_2].
  intros (k & d & Hd & Hk & Hpref)%Hin%marked_not_preferred; [|done].
  assert (d = m) as -> by by eapply NoDup_lookup.
  apply (Hmin k); [apply elem_of_seq; lia|done].
Qed.

Lemma some_feature_retained_witness :
  ∃ out, selectNonIntercorrelated corr2 ["a"; "b"] (1 # 2) = Return out ∧ out ≠ [].
Proof.
  apply some_feature_retained.
  - apply (bool_decide_unpack _). vm_compute. exact I.
  - discriminate.
  - apply (bool_decide_unpack _). vm_compute. exact I.
Defined.

(** ** The threshold *)

Lemma marks_threshold_mono f th th' x : (th <= th')%Q → marks f th' x → marks f th x.
Proof.
  intros Hle (i & j & a & b & r & Hij & Ha & Hb & Hr & Hlt & ->).
  exists i, j, a, b, r. split_and!; try done. lra.
Qed.

Lemma filter_sublist_mono {A : Type} (P Q : A → Prop)
    `{!∀ x, Decision (P x), !∀ x, Decision (Q x)} (l : list A) :
  (∀ x, P x → Q x) → filter P l `sublist_of` filter Q l.
Proof.
  intros HPQ. induction l as [|x l IH]; [done|].
  rewrite !filter_cons. destruct (decide (P x)) as [HP|HP].
  - rewrite decide_True by auto. by constructor.
  - destruct (decide (Q x)); [by constructor|done].
Qed.

(** Raising the threshold never drops more: the features retained at a
    threshold are retained, in the same order, at any higher one. *)
Theorem higher_threshold_retains_more df ftrs th th' :
  index df = frame_columns df →
  NoDup (frame_columns df) →
  (th <= th')%Q →
  ∃ out out',
    selectNonIntercorrelated df ftrs th = Return out ∧
    selectNonIntercorrelated df ftrs th' = Return out' ∧
    out `sublist_of` out'.
Proof.
  intros Hidx Hnd Hle.
  destruct (selectNonIntercorrelated_spec df ftrs th Hidx Hnd)
    as (dropped & _ & Hin & Hout).
  destruct (selectNonIntercorrelated_spec df ftrs th' Hidx Hnd)
    as (dropped' & _ & Hin' & Hout').
  eexists _, _. split_and!; [done..|].
  apply filter_sublist_mono. intros x Hx Hx'. apply Hx, Hin.
  eapply marks_threshold_mono; [done|by apply Hin'].
Qed.

Lemma higher_threshold_retains_more_witness :
  ∃ out out',
    selectNonIntercorrelated corr3 ["a"; "b"; "c"] (8 # 10) = Return out ∧
    selectNonIntercorrelated corr3 ["a"; "b"; "c"] (9 # 10) = Return out' ∧
    out `sublist_of` out'.
Proof.
  apply higher_threshold_retains_more.
  - reflexivity.
  - apply (bool_decide_unpack _). vm_compute. exact I.
  - unfold Qle. simpl. lia.
Defined.

(** ** Equal scores *)

(** When the two features of a pair above the threshold have the same
    score, as computed, the one whose column comes first in the matrix is
    marked. *)
Theorem tie_drops_earlier_column (mean : list cell → cell) df ftrs th i j a b r mi mj :
  index df = frame_columns df →
  NoDup (frame_columns df) →
  i < j →
  frame_columns df !! i = Some a →
  frame_columns df !! j = Some b →
  entry df i j = Some r →
  (th < Qabs r)%Q →
  score mean df i = Some mi →
  score mean df j = Some mj →
  (mi == mj)%Q →
  ∃ dropped out,
    intercorrelated_features_set_by mean (frame_abs df) th = Return dropped ∧
    a ∈ dropped ∧
    selectNonIntercorrelated_by mean df ftrs th = Return out ∧
    a ∉ out.
Proof.
  intros Hidx Hnd Hij Ha Hb Hr Hth Hmi Hmj Heq.
  destruct (selectNonIntercorrelated_by_spec mean df ftrs th Hidx Hnd)
    as (dropped & Hrun & Hin & Hout).
  assert (Hdrop : a ∈ dropped).
  { apply Hin. exists i, j, a, b, (Qabs r).
    rewrite !frame_abs_columns. split_and!; try done.
    - apply entry_frame_abs_Some. eauto.
    - unfold score in *. unfold candidate. rewrite Hmi, Hmj. simpl.
      rewrite bool_decide_eq_false_2; [done|]. lra. }
  exists dropped, (filter (λ e, e ∉ dropped) ftrs). split_and!; try done.
  rewrite list_elem_of_filter. tauto.
Qed.

Lemma tie_drops_earlier_column_witness :
  ∃ dropped out,
    intercorrelated_features_set_by mean64 (frame_abs corr2) (9 # 10) = Return dropped ∧
    "a" ∈ dropped ∧
    selectNonIntercorrelated_by mean64 corr2 ["a"; "b"] (9 # 10) = Return out ∧
    "a" ∉ out.
Proof.
  apply (tie_drops_earlier_column mean64 corr2 ["a"; "b"] (9 # 10) 0 1 "a" "b" 1
           (4503599627370496 # 4503599627370496) (4503599627370496 # 4503599627370496)).
  - reflexivity.
  - apply (bool_decide_unpack _). vm_compute. exact I.
  - lia.
  - reflexivity.
  - reflexivity.
  - reflexivity.
  - reflexivity.
  - vm_compute. reflexivity.
  - vm_compute. reflexivity.
  - reflexivity.
Defined.

(** ** The list of drop candidates *)

Lemma NoDup_append_new x set : NoDup set → NoDup (append_new x set).
Proof.
  intros Hnd. unfold append_new. case_decide as Hx; [done|].
  apply NoDup_app. split_and!; [done| |apply NoDup_singleton].
  by intros y Hy ->%list_elem_of_singleton.
Qed.

Lemma for_each_mark_pair_NoDup means feature main xs : ∀ set set',
  for_each (mark_pair means feature main) xs set = Return set' →
  NoDup set → NoDup set'.
Proof.
  induction xs as [|each xs IH]; intros set set' Hrun Hnd; cbn [for_each] in Hrun.
  - by injection Hrun as <-.
  - destruct (mark_pair means feature main set each) as [set1|e] eqn:Hpair;
      simpl in Hrun; [|done].
    apply (IH set1 set' Hrun). unfold mark_pair in Hpair.
    destruct (getitem means each) as [m|e]; simpl in Hpair; [|done].
    destruct (cell_gt main m); injection Hpair as <-; by apply NoDup_append_new.
Qed.

Lemma for_each_mark_column_NoDup means high cols : ∀ set set',
  for_each (mark_column means high) cols set = Return set' →
  NoDup set → NoDup set'.
Proof.
  induction cols as [|feature cols IH]; intros set set' Hrun Hnd; cbn [for_each] in Hrun.
  - by injection Hrun as <-.
  - destruct (mark_column means high set feature) as [set1|e] eqn:Hcol;
      simpl in Hrun; [|done].
    apply (IH set1 set' Hrun). unfold mark_column in Hcol.
    destruct (getitem means feature) as [main|e]; simpl in Hcol; [|done].
    destruct (frame_getitem high feature) as [col|e]; simpl in Hcol; [|done].
    by eapply for_each_mark_pair_NoDup.
Qed.

(** The guard [if ... not in intercorrelated_features_set] keeps the list of
    drop candidates free of duplicates, whatever the frame. *)
Theorem drop_candidates_NoDup corr_matrix th dropped :
  intercorrelated_features_set corr_matrix th = Return dropped → NoDup dropped.
Proof.
  intros Hrun. eapply for_each_mark_column_NoDup; [exact Hrun|apply NoDup_nil_2].
Qed.

Lemma drop_candidates_NoDup_witness :
  intercorrelated_features_set (frame_abs corr3) (8 # 10) = Return ["a"] ∧ NoDup ["a"].
Proof.
  split; [reflexivity|].
  apply (drop_candidates_NoDup (frame_abs corr3) (8 # 10) ["a"]). reflexivity.
Defined.

(** ** Feature lists in several parts *)

(** The drop candidates depend on the matrix alone, so filtering a feature
    list given in two parts amounts to filtering each part. *)
Theorem filter_distributes_over_concatenation df xs ys th :
  index df = frame_columns df →
  NoDup (frame_columns df) →
  ∃ out_xs out_ys,
    selectNonIntercorrelated df xs th = Return out_xs ∧
    selectNonIntercorrelated df ys th = Return out_ys ∧
    selectNonIntercorrelated df (xs ++ ys) th = Return (out_xs ++ out_ys).
Proof.
  intros Hidx Hnd.
  destruct (selectNonIntercorrelated_spec df xs th Hidx Hnd) as (d1 & Hd1 & _ & Hxs).
  destruct (selectNonIntercorrelated_spec df ys th Hidx Hnd) as (d2 & Hd2 & _ & Hys).
  destruct (selectNonIntercorrelated_spec df (xs ++ ys) th Hidx Hnd) as (d & Hd & _ & Hxy).
  assert (d1 = d) as -> by congruence. assert (d2 = d) as -> by congruence.
  eexists _, _. split_and!; [done..|]. by rewrite Hxy, filter_app.
Qed.

Lemma filter_distributes_over_concatenation_witness :
  ∃ out_xs out_ys,
    selectNonIntercorrelated corr3 ["c"; "a"] (8 # 10) = Return out_xs ∧
    selectNonIntercorrelated corr3 ["b"] (8 # 10) = Return out_ys ∧
    selectNonIntercorrelated corr3 (["c"; "a"] ++ ["b"]) (8 # 10) = Return (out_xs ++ out_ys).
Proof.
  apply filter_distributes_over_concatenation.
  - reflexivity.
  - apply (bool_decide_unpack _). vm_compute. exact I.
Defined.

(** ** The call on the heap, once more *)

Lemma selectNonIntercorrelated_run_refines_witness :
  ∃ ref σ',
    selectNonIntercorrelated_run 1 2 (8 # 10) caller_state = (Return ref, σ') ∧
    heap caller_state !! ref = None ∧ heap σ' !! ref = Some (OList ["b"; "c"]) ∧
    stdout σ' = stdout caller_state ++ [["b"; "c"]].
Proof.
  apply (selectNonIntercorrelated_run_refines 1 2 (8 # 10) caller_state corr3
           ["a"; "b"; "c"] ["b"; "c"]).
  - reflexivity.
  - reflexivity.
  - reflexivity.
Defined.

(** * Filling the missing values *)

(** ** The positions of the NaN *)

Lemma elem_of_nan_positions (X : array2) x y :
  (x, y) ∈ nan_positions X ↔ ∃ row, X !! x = Some row ∧ row !! y = Some None.
Proof.
  unfold nan_positions. rewrite list_elem_of_join. split.
  - intros (l & Hp & [x' Hl]%list_elem_of_lookup).
    rewrite list_lookup_imap in Hl.
    destruct (X !! x') as [row|] eqn:Hrow; simplify_eq/=.
    apply list_elem_of_omap in Hp as (o & [y' Ho]%list_elem_of_lookup & Hid).
    rewrite list_lookup_imap in Ho.
    destruct (row !! y') as [[v|]|] eqn:Hv; simplify_eq/=. eauto.
  - intros (row & Hrow & Hv).
    exists (omap id (imap (λ y (v : cell),
                            match v with None => Some (x, y) | Some _ => None end) row)).
    split.
    + apply list_elem_of_omap. exists (Some (x, y)). split; [|done].
      apply list_elem_of_lookup. exists y. by rewrite list_lookup_imap, Hv.
    + apply list_elem_of_lookup. exists x. by rewrite list_lookup_imap, Hrow.
Qed.

Lemma elem_of_nan_positions_to_array f x y :
  (x, y) ∈ nan_positions (to_array f) ↔
  x < length (index f) ∧ y < length (data f) ∧ entry f x y = None.
Proof.
  rewrite elem_of_nan_positions. unfold to_array, entry. split.
  - intros (row & Hrow & Hv). rewrite list_lookup_fmap in Hrow.
    destruct (seq 0 (length (index f)) !! x) as [x'|] eqn:Hx; simplify_eq/=.
    apply lookup_seq in Hx as [-> Hx]. simpl in Hv.
    rewrite list_lookup_fmap in Hv.
    destruct (data f !! y) as [c|] eqn:Hc; simplify_eq/=.
    split_and!; [done|by eapply lookup_lt_Some|done].
  - intros (Hx & Hy & Hv).
    apply lookup_lt_is_Some_2 in Hy as [c Hc]. rewrite Hc in Hv. simpl in Hv.
    eexists. split.
    + rewrite list_lookup_fmap, lookup_seq_lt by done. done.
    + simpl. by rewrite list_lookup_fmap, Hc, <-Hv.
Qed.

(** ** Reading and writing by position *)

Lemma array_get_cell X x y v : array_get X x y = Ok v → array_cell X x y = v.
Proof.
  unfold array_get, array_cell, item.
  destruct (X !! x) as [row|]; simpl; [|done].
  destruct (row !! y) as [v'|]; simpl; [|done]. by intros [= ->].
Qed.

Lemma frame_columns_length f : length (frame_columns f) = length (data f).
Proof. unfold frame_columns. by rewrite length_fmap. Qed.

(** One assignment [f.iloc[x, y] = v] within the bounds of a rectangular
    frame. *)
Lemma iloc_set_filled X f x y v :
  rectangular f →
  x < length (index f) → y < length (data f) →
  array_cell X x y = v →
  ∃ f', iloc_set f x y v = Ok f' ∧ filled X [(x, y)] f f'.
Proof.
  intros Hrect Hx Hy Hv.
  destruct (lookup_lt_is_Some_2 _ _ Hy) as [c Hc].
  assert (Hlen : length c.2 = length (index f)).
  { unfold rectangular in Hrect. rewrite Forall_forall in Hrect.
    apply Hrect. by eapply list_elem_of_lookup_2. }
  eexists. split.
  { unfold iloc_set, item. rewrite Hc. simpl. by rewrite decide_True. }
  unfold filled. simpl. split_and!; [done| | |].
  - unfold frame_columns. simpl. rewrite list_fmap_insert. simpl.
    apply list_insert_id. by rewrite list_lookup_fmap, Hc.
  - unfold rectangular. simpl. apply Forall_insert; [done|].
    simpl. by rewrite length_insert.
  - intros i j. unfold entry. simpl. case_decide as Hp.
    + apply list_elem_of_singleton in Hp as [= -> ->].
      rewrite list_lookup_insert_eq by done. simpl. unfold cell_at.
      rewrite list_lookup_insert_eq by lia. by simpl.
    + destruct (decide (j = y)) as [->|Hj].
      * rewrite list_lookup_insert_eq by done. rewrite Hc. simpl. unfold cell_at.
        rewrite list_lookup_insert_ne; [done|]. intros ->. apply Hp. left.
      * by rewrite list_lookup_insert_ne.
Qed.

Lemma filled_cons X p ps f f1 f' :
  filled X [p] f f1 → filled X ps f1 f' → filled X (p :: ps) f f'.
Proof.
  intros (Hi1 & Hc1 & _ & He1) (Hi & Hc & Hr & He).
  split_and!; [congruence..|done|].
  intros i j. rewrite He, He1.
  destruct (decide ((i, j) ∈ ps)) as [Hps|Hps].
  - rewrite decide_True; [done|by right].
  - destruct (decide ((i, j) = p)) as [Hp|Hp].
    + rewrite decide_True by (rewrite Hp; left).
      rewrite decide_True; [done|]. rewrite Hp. left.
    + rewrite decide_False by (by intros ?%list_elem_of_singleton).
      rewrite decide_False; [done|]. by intros [?|?]%elem_of_cons.
Qed.

Lemma filled_nil X f : rectangular f → filled X [] f f.
Proof.
  intros Hrect. split_and!; [done..|]. intros i j.
  rewrite decide_False; [done|apply not_elem_of_nil].
Qed.

(** ** The loop *)

Lemma fill_at_Ok X1 X2 s t x y v1 v2 s1 t1 :
  array_get X1 x y = Ok v1 → iloc_set s x y v1 = Ok s1 →
  array_get X2 x y = Ok v2 → iloc_set t x y v2 = Ok t1 →
  fill_at X1 X2 (s, t) (x, y) = Ok (s1, t1).
Proof.
  intros Hv1 Hs1 Hv2 Ht1. unfold fill_at. cbn [fst snd].
  rewrite Hv1. cbn [mbind checked_bind]. rewrite Hs1. cbn [mbind checked_bind].
  rewrite Hv2. cbn [mbind checked_bind]. by rewrite Ht1.
Qed.

Lemma for_in_fill_at X1 X2 ps : ∀ s t,
  rectangular s → rectangular t →
  (∀ x y, (x, y) ∈ ps →
     x < length (index s) ∧ y < length (data s) ∧
     x < length (index t) ∧ y < length (data t) ∧
     (∃ v, array_get X1 x y = Ok v) ∧ (∃ v, array_get X2 x y = Ok v)) →
  ∃ s' t', for_in (fill_at X1 X2) ps (s, t) = Ok (s', t') ∧
           filled X1 ps s s' ∧ filled X2 ps t t'.
Proof.
  induction ps as [|[x y] ps IH]; intros s t Hs Ht Hps.
  - exists s, t. split_and!; [done|by apply filled_nil..].
  - destruct (Hps x y) as (Hxs & Hys & Hxt & Hyt & [v1 Hv1] & [v2 Hv2]); [left|].
    destruct (iloc_set_filled X1 s x y v1 Hs Hxs Hys (array_get_cell _ _ _ _ Hv1))
      as (s1 & Hset1 & Hfill1).
    destruct (iloc_set_filled X2 t x y v2 Ht Hxt Hyt (array_get_cell _ _ _ _ Hv2))
      as (t1 & Hset2 & Hfill2).
    assert (Hs1 := Hfill1). destruct Hs1 as (Hi1 & Hc1 & Hr1 & _).
    assert (Ht1 := Hfill2). destruct Ht1 as (Hi2 & Hc2 & Hr2 & _).
    destruct (IH s1 t1 Hr1 Hr2) as (s' & t' & Hrun & Hfs & Hft).
    { intros x' y' Hp. destruct (Hps x' y') as (? & ? & ? & ? & ? & ?); [by right|].
      rewrite Hi1, Hi2, <-(frame_columns_length s1), <-(frame_columns_length t1), Hc1, Hc2,
        !frame_columns_length. done. }
    exists s', t'. split_and!; [|by eapply filled_cons..].
    cbn [for_in]. by rewrite (fill_at_Ok _ _ _ _ _ _ _ _ _ _ Hv1 Hset1 Hv2 Hset2).
Qed.

(** The loop over [range(len(rows))] visits the positions one by one. *)
Lemma for_in_positions {S : Type} (g : S → nat * nat → checked S) (l : list (nat * nat)) :
  ∀ pre s,
    for_in (λ s i, x ← item (pre ++ l).*1 i; y ← item (pre ++ l).*2 i; g s (x, y))
      (seq (length pre) (length l)) s
    = for_in g l s.
Proof.
  induction l as [|[x y] l IH]; intros pre s; [done|].
  cbn [length seq for_in].
  assert (Hx : item (pre ++ (x, y) :: l).*1 (length pre) = Ok x).
  { unfold item. rewrite fmap_app, lookup_app_r by (by rewrite length_fmap).
    by rewrite length_fmap, Nat.sub_diag. }
  assert (Hy : item (pre ++ (x, y) :: l).*2 (length pre) = Ok y).
  { unfold item. rewrite fmap_app, lookup_app_r by (by rewrite length_fmap).
    by rewrite length_fmap, Nat.sub_diag. }
  rewrite Hx. simpl. rewrite Hy. simpl.
  destruct (g s (x, y)) as [s'|]; simpl; [|done].
  rewrite <-(IH (pre ++ [(x, y)]) s'). rewrite length_app, Nat.add_1_r.
  by rewrite <-app_assoc.
Qed.

Lemma fill_missing_positions data_all X1 X2 :
  fill_missing data_all X1 X2
  = for_in (fill_at X1 X2) (nan_positions (to_array data_all)) (data_all, data_all).
Proof.
  unfold fill_missing, where_isnan. simpl. rewrite length_fmap.
  apply (for_in_positions (fill_at X1 X2) (nan_positions (to_array data_all)) []).
Qed.

(** ** What the loop leaves in the two copies *)

Lemma fill_missing_filled data_all X1 X2 :
  rectangular data_all →
  (∀ x y, x < length (index data_all) → y < length (data data_all) →
     entry data_all x y = None →
     (∃ v, array_get X1 x y = Ok v) ∧ (∃ v, array_get X2 x y = Ok v)) →
  ∃ s t, fill_missing data_all X1 X2 = Ok (s, t) ∧
         filled X1 (nan_positions (to_array data_all)) data_all s ∧
         filled X2 (nan_positions (to_array data_all)) data_all t.
Proof.
  intros Hrect Hshape. rewrite fill_missing_positions.
  apply for_in_fill_at; [done..|].
  intros x y (Hx & Hy & Hnan)%elem_of_nan_positions_to_array.
  destruct (Hshape x y Hx Hy Hnan). done.
Qed.

Lemma filled_entry X f f' i j :
  filled X (nan_positions (to_array f)) f f' →
  i < length (index f) → j < length (data f) →
  entry f' i j = match entry f i j with Some v => Some v | None => array_cell X i j end.
Proof.
  intros (_ & _ & _ & He) Hi Hj. rewrite He.
  destruct (entry f i j) as [v|] eqn:Hv.
  - rewrite decide_False; [done|].
    intros (_ & _ & Hnan)%elem_of_nan_positions_to_array. congruence.
  - rewrite decide_True; [done|]. by apply elem_of_nan_positions_to_array.
Qed.

(** When the two imputed arrays cover the missing cells, the loop ends and
    the two copies keep the labels of [data_all] and every value that was
    there; each missing cell holds the value of its array at the same
    position. *)
Theorem fill_missing_fills_gaps data_all X_imp_simple X_imp_it :
  rectangular data_all →
  (∀ x y, x < length (index data_all) → y < length (data data_all) →
     entry data_all x y = None →
     (∃ v, array_get X_imp_simple x y = Ok v) ∧ (∃ v, array_get X_imp_it x y = Ok v)) →
  ∃ data_all_simple data_all_it,
    fill_missing data_all X_imp_simple X_imp_it = Ok (data_all_simple, data_all_it) ∧
    index data_all_simple = index data_all ∧
    frame_columns data_all_simple = frame_columns data_all ∧
    index data_all_it = index data_all ∧
    frame_columns data_all_it = frame_columns data_all ∧
    ∀ i j, i < length (index data_all) → j < length (data data_all) →
      entry data_all_simple i j
      = match entry data_all i j with
        | Some v => Some v
        | None => array_cell X_imp_simple i j
        end ∧
      entry data_all_it i j
      = match entry data_all i j with
        | Some v => Some v
        | None => array_cell X_imp_it i j
        end.
Proof.
  intros Hrect Hshape.
  destruct (fill_missing_filled data_all X_imp_simple X_imp_it Hrect Hshape)
    as (s & t & Hrun & Hs & Ht).
  exists s, t. split; [done|].
  assert (Hs' := Hs). assert (Ht' := Ht).
  destruct Hs' as (? & ? & _ & _), Ht' as (? & ? & _ & _).
  split_and!; [done..|]. intros i j Hi Hj. split; by apply filled_entry.
Qed.

Lemma fill_missing_fills_gaps_witness :
  ∃ data_all_simple data_all_it,
    fill_missing measured imputed_simple imputed_it = Ok (data_all_simple, data_all_it) ∧
    index data_all_simple = index measured ∧
    frame_columns data_all_simple = frame_columns measured ∧
    index data_all_it = index measured ∧
    frame_columns data_all_it = frame_columns measured ∧
    ∀ i j, i < length (index measured) → j < length (data measured) →
      entry data_all_simple i j
      = match entry measured i j with
        | Some v => Some v
        | None => array_cell imputed_simple i j
        end ∧
      entry data_all_it i j
      = match entry measured i j with
        | Some v => Some v
        | None => array_cell imputed_it i j
        end.
Proof.
  apply fill_missing_fills_gaps.
  - apply (bool_decide_unpack _). vm_compute. exact I.
  - intros [|[|x]] [|[|y]] Hx Hy Hnan; simpl in *; try lia; try done; by eauto.
Defined.

(** After the loop no value is missing, as soon as the imputed arrays hold
    a number at every position where [data_all] has none. *)
Theorem fill_missing_leaves_no_gap data_all X_imp_simple X_imp_it :
  rectangular data_all →
  (∀ x y, x < length (index data_all) → y < length (data data_all) →
     entry data_all x y = None →
     (∃ v, array_get X_imp_simple x y = Ok (Some v)) ∧
     (∃ v, array_get X_imp_it x y = Ok (Some v))) →
  ∃ data_all_simple data_all_it,
    fill_missing data_all X_imp_simple X_imp_it = Ok (data_all_simple, data_all_it) ∧
    ∀ i j, i < length (index data_all) → j < length (data data_all) →
      is_Some (entry data_all_simple i j) ∧ is_Some (entry data_all_it i j).
Proof.
  intros Hrect Hshape.
  destruct (fill_missing_filled data_all X_imp_simple X_imp_it Hrect)
    as (s & t & Hrun & Hs & Ht).
  { intros x y Hx Hy Hnan. destruct (Hshape x y Hx Hy Hnan) as [[? ?] [? ?]]. eauto. }
  exists s, t. split; [done|]. intros i j Hi Hj.
  rewrite (filled_entry _ _ _ _ _ Hs Hi Hj), (filled_entry _ _ _ _ _ Ht Hi Hj).
  destruct (entry data_all i j) as [v|] eqn:Hv; [by split; eexists|].
  destruct (Hshape i j Hi Hj Hv) as [[v1 Hv1] [v2 Hv2]].
  rewrite (array_get_cell _ _ _ _ Hv1), (array_get_cell _ _ _ _ Hv2).
  by split; eexists.
Qed.

Lemma fill_missing_leaves_no_gap_witness :
  ∃ data_all_simple data_all_it,
    fill_missing measured imputed_simple imputed_it = Ok (data_all_simple, data_all_it) ∧
    ∀ i j, i < length (index measured) → j < length (data measured) →
      is_Some (entry data_all_simple i j) ∧ is_Some (entry data_all_it i j).
Proof.
  apply fill_missing_leaves_no_gap.
  - apply (bool_decide_unpack _). vm_compute. exact I.
  - intros [|[|x]] [|[|y]] Hx Hy Hnan; simpl in *; try lia; try done; by eauto.
Defined.

(** ** An array that is too small *)

Lemma fill_at_IndexError X1 X2 copies p :
  array_get X1 p.1 p.2 = IndexError ∨ array_get X2 p.1 p.2 = IndexError →
  fill_at X1 X2 copies p = IndexError.
Proof.
  intros Hget. unfold fill_at.
  destruct (array_get X1 p.1 p.2) as [v1|]; cbn [mbind checked_bind]; [|done].
  destruct (iloc_set copies.1 p.1 p.2 v1) as [s|]; cbn [mbind checked_bind]; [|done].
  destruct Hget as [?|Hget]; [done|]. by rewrite Hget.
Qed.

Lemma for_in_fill_at_IndexError X1 X2 ps p : ∀ copies,
  p ∈ ps →
  array_get X1 p.1 p.2 = IndexError ∨ array_get X2 p.1 p.2 = IndexError →
  for_in (fill_at X1 X2) ps copies = IndexError.
Proof.
  induction ps as [|q ps IH]; intros copies Hp Hget; [by apply elem_of_nil in Hp|].
  cbn [for_in].
  destruct (fill_at X1 X2 copies q) as [copies'|] eqn:Hq; cbn [mbind checked_bind]; [|done].
  apply elem_of_cons in Hp as [->|Hp]; [|by apply IH].
  by rewrite fill_at_IndexError in Hq.
Qed.

(** When an imputed array has no cell at the position of a missing value
    (the imputer returned fewer columns or rows), the loop raises
    [IndexError]. *)
Theorem fill_missing_out_of_bounds data_all X_imp_simple X_imp_it x y :
  x < length (index data_all) → y < length (data data_all) →
  entry data_all x y = None →
  array_get X_imp_simple x y = IndexError ∨ array_get X_imp_it x y = IndexError →
  fill_missing data_all X_imp_simple X_imp_it = IndexError.
Proof.
  intros Hx Hy Hnan Hget. rewrite fill_missing_positions.
  apply (for_in_fill_at_IndexError _ _ _ (x, y)); [|done].
  by apply elem_of_nan_positions_to_array.
Qed.

Lemma fill_missing_out_of_bounds_witness :
  fill_missing measured [[Some 1%Q]; [Some 1%Q]] imputed_it = IndexError.
Proof.
  apply (fill_missing_out_of_bounds measured [[Some 1%Q]; [Some 1%Q]] imputed_it 0 1).
  - simpl. lia.
  - simpl. lia.
  - reflexivity.
  - left. reflexivity.
Defined.
